(** * TFM.cpp: the TeX Font Metric reader of dvisvgm

    A shallow embedding of [src/src/TFM.cpp]: the big-endian reader
    [read_unsigned], the table reader [read_words], the fixed-point
    conversion [fix2double], the loader [TFM::readFromStream] and the four
    metric queries, followed by the properties of the specification. *)

From Stdlib Require Import ZArith Lia Bool List.
From Stdlib Require Import Init.Byte Strings.Byte.
From Stdlib Require Import Floats.SpecFloat.
From stdpp Require Import base list.

Local Open Scope Z_scope.

(** ** Machine integers

    The C++ integer types are modelled as [Z] with the wrap-around of each
    conversion written out. *)

Definition UInt32 (x : Z) : Z := x mod 2 ^ 32.
Definition UInt16 (x : Z) : Z := x mod 2 ^ 16.

(** Modelled from the spec: the typedef of [FixWord], which is not among
    the sources.  A fix word is a signed 32-bit integer; converting an
    unsigned word to it reinterprets the bit pattern in two's complement. *)
Definition FixWord (x : Z) : Z := (x + 2 ^ 31) mod 2 ^ 32 - 2 ^ 31.

(** [unsigned(x)] on an [int]. *)
Definition unsigned (x : Z) : Z := x mod 2 ^ 32.

Definition int_range (c : Z) : Prop := - 2 ^ 31 <= c < 2 ^ 31.
Definition UInt16_range (x : Z) : Prop := 0 <= x < 2 ^ 16.
Definition UInt32_range (x : Z) : Prop := 0 <= x < 2 ^ 32.

(** ** Doubles

    IEEE 754 binary64 values, with the operations of the standard library's
    executable specification of floating-point arithmetic (round to nearest,
    ties to even). *)

Definition double : Type := spec_float.

Definition dprec : Z := 53.
Definition demax : Z := 1024.

(** [double(i)] for an integer [i]. *)
Definition double_of_int (i : Z) : double := binary_normalize dprec demax i 0 false.

Definition dmul (x y : double) : double := SFmul dprec demax x y.
Definition ddiv (x y : double) : double := SFdiv dprec demax x y.

(** The literal [0] returned as a [double]. *)
Definition dzero : double := S754_zero false.

(** ** Input streams

    A [std::istream] on a file: the bytes of the file, the read position and
    the two state bits the code depends on.  [eofbit] is set only by a read
    that hits the end of the file, never by reaching the end. *)

Record istream : Type := mk_istream {
  sbuf : list byte;
  spos : Z;
  eofbit : bool;
  failbit : bool
}.

(** A freshly opened stream. *)
Definition open_stream (bytes : list byte) : istream :=
  mk_istream bytes 0 false false.

(** [is.eof()] *)
Definition eof (s : istream) : bool := eofbit s.

(** [is.good()] *)
Definition good (s : istream) : bool := negb (eofbit s) && negb (failbit s).

(** The value of [traits_type::eof()]. *)
Definition EOF : Z := -1.

(** [is.get()]: an unformatted input function.  On a stream that is not
    [good()] it sets [failbit] and returns [EOF].  Otherwise it returns the
    next byte and advances, or, at the end of the file, sets [eofbit] and
    [failbit] and returns [EOF]. *)
Definition get (s : istream) : Z * istream :=
  if good s then
    match (if 0 <=? spos s then sbuf s !! Z.to_nat (spos s) else None) with
    | Some b => (Z.of_N (Byte.to_N b),
                 mk_istream (sbuf s) (spos s + 1) (eofbit s) (failbit s))
    | None => (EOF, mk_istream (sbuf s) (spos s) true true)
    end
  else (EOF, mk_istream (sbuf s) (spos s) (eofbit s) true).

(** [is.seekg(off, dir)]: clears [eofbit] (as from C++11); then, unless
    [fail()], moves the read position.  A file stream may be positioned past
    its end; a negative target is an error and sets [failbit].  A failed
    stream is not moved.  The stream is that of a file, as [createFromFile]
    opens it: a string stream refuses a target behind its data, so that
    statements about other streams keep the targets inside the data. *)
Definition seek_to (target : Z) (s : istream) : istream :=
  if failbit s then mk_istream (sbuf s) (spos s) false true
  else if target <? 0 then mk_istream (sbuf s) (spos s) false true
  else mk_istream (sbuf s) target false false.

Definition seekg_beg (off : Z) (s : istream) : istream := seek_to off s.
Definition seekg_cur (off : Z) (s : istream) : istream := seek_to (spos s + off) s.

(** ** read_unsigned

<<
static UInt32 read_unsigned (istream &is, int n) {
	UInt32 ret = 0;
	for (int i=n-1; i >= 0 && !is.eof(); i--) {
		UInt32 b = is.get();
		ret |= b << (8*i);
	}
	return ret;
}
>>
    The loop runs on the number [k = i+1] of iterations left.  [n] is at
    most 4 (a shift by 32 or more is undefined) and above [-2^31] (so that
    [n-1] is an [int]). *)

Fixpoint read_unsigned_loop (k : nat) (ret : Z) (s : istream) : Z * istream :=
  match k with
  | O => (ret, s)
  | S i =>
      if eof s then (ret, s)
      else
        let '(c, s') := get s in
        let b := UInt32 c in
        read_unsigned_loop i (UInt32 (Z.lor ret (UInt32 (Z.shiftl b (8 * Z.of_nat i))))) s'
  end.

Definition read_unsigned (n : Z) (s : istream) : Z * istream :=
  read_unsigned_loop (Z.to_nat n) 0 s.

(** ** read_words

<<
template <typename T>
static void read_words (istream &is, vector<T> &v, unsigned n) {
	v.clear();
	v.resize(n);
	for (unsigned i=0; i < n; i++)
		v[i] = read_unsigned(is, 4);
}
>>
    [v.clear(); v.resize(n)] leaves [n] value-initialised elements whatever
    [v] held before; the loop then overwrites them in order.  The count is
    converted to [unsigned] where it is passed. *)

(** [v.resize(n)]: truncates, or appends value-initialised elements.  The
    allocation is taken to succeed: where [n] is so large that [resize]
    throws [std::bad_alloc] instead, the code does not return and the model
    says nothing about it. *)
Definition vec_resize (n : nat) (v : list Z) : list Z :=
  take n v ++ replicate (n - length v) 0.

Fixpoint read_words_loop (k : nat) (i : nat) (v : list Z) (s : istream)
  : list Z * istream :=
  match k with
  | O => (v, s)
  | S k' =>
      let '(w, s') := read_unsigned 4 s in
      read_words_loop k' (S i) (<[i := w]> v) s'
  end.

Definition read_words (v : list Z) (n : Z) (s : istream) : list Z * istream :=
  let n := unsigned n in
  let v := @nil Z in
  let v := vec_resize (Z.to_nat n) v in
  read_words_loop (Z.to_nat n) 0%nat v s.

(** ** fix2double

<<
static double fix2double (FixWord fix) {
	return double(fix)/(1 << 20);
}
>> *)

Definition fix2double (fx : Z) : double :=
  ddiv (double_of_int fx) (double_of_int (Z.shiftl 1 20)).

(** ** The font object *)

(** Modelled from the spec: the member declarations of [class TFM] in
    [TFM.h], which is not among the sources.  The character range is two
    2-byte unsigned fields, the checksum a 32-bit unsigned word, the design
    size a [FixWord], and the five tables are sequences of 32-bit unsigned
    words; a metric word is reinterpreted as a [FixWord] where it is passed
    to [fix2double]. *)
Record TFM : Type := mk_TFM {
  _checksum : Z;
  _firstChar : Z;
  _lastChar : Z;
  _designSize : Z;
  _charInfoTable : list Z;
  _widthTable : list Z;
  _heightTable : list Z;
  _depthTable : list Z;
  _italicTable : list Z
}.

(** [TFM::TFM ()] *)
Definition TFM_default : TFM := mk_TFM 0 0 0 0 [] [] [] [] [].

(** The ranges of the members' types. *)
Record TFM_wf (t : TFM) : Prop := mk_TFM_wf {
  wf_firstChar : UInt16_range (_firstChar t);
  wf_lastChar : UInt16_range (_lastChar t);
  wf_designSize : int_range (_designSize t)
}.

(** ** readFromStream

<<
bool TFM::readFromStream (istream &is) {
	is.seekg(2, ios_base::beg);        // skip file size
	UInt16 lh = read_unsigned(is, 2);  // length of header in 4 byte words
	_firstChar= read_unsigned(is, 2);  // smalles character code in font
	_lastChar = read_unsigned(is, 2);  // largest character code in font
	UInt16 nw = read_unsigned(is, 2);  // number of words in width table
	UInt16 nh = read_unsigned(is, 2);  // number of words in height table
	UInt16 nd = read_unsigned(is, 2);  // number of words in depth table
	UInt16 ni = read_unsigned(is, 2);  // number of words in italic corr. table
	is.seekg(8, ios_base::cur);        // move to header (skip above commented bytes)
	_checksum = read_unsigned(is, 4);
	_designSize = read_unsigned(is, 4);
	is.seekg(24+lh*4, ios_base::beg);  // move to char info table
	read_words(is, _charInfoTable, _lastChar-_firstChar+1);
	read_words(is, _widthTable, nw);
	read_words(is, _heightTable, nh);
	read_words(is, _depthTable, nd);
	read_words(is, _italicTable, ni);
	return true;
}
>>
    The stream is threaded through the calls in the order of the source. *)

Definition readFromStream (t : TFM) (s : istream) : bool * TFM * istream :=
  let s := seekg_beg 2 s in
  let '(r, s) := read_unsigned 2 s in let lh := UInt16 r in
  let '(r, s) := read_unsigned 2 s in let firstChar := UInt16 r in
  let '(r, s) := read_unsigned 2 s in let lastChar := UInt16 r in
  let '(r, s) := read_unsigned 2 s in let nw := UInt16 r in
  let '(r, s) := read_unsigned 2 s in let nh := UInt16 r in
  let '(r, s) := read_unsigned 2 s in let nd := UInt16 r in
  let '(r, s) := read_unsigned 2 s in let ni := UInt16 r in
  let s := seekg_cur 8 s in
  let '(r, s) := read_unsigned 4 s in let checksum := UInt32 r in
  let '(r, s) := read_unsigned 4 s in let designSize := FixWord r in
  let s := seekg_beg (24 + lh * 4) s in
  let '(charInfoTable, s) := read_words (_charInfoTable t) (lastChar - firstChar + 1) s in
  let '(widthTable, s) := read_words (_widthTable t) nw s in
  let '(heightTable, s) := read_words (_heightTable t) nh s in
  let '(depthTable, s) := read_words (_depthTable t) nd s in
  let '(italicTable, s) := read_words (_italicTable t) ni s in
  (true,
   mk_TFM checksum firstChar lastChar designSize
     charInfoTable widthTable heightTable depthTable italicTable,
   s).

(** [TFM::TFM (istream &is)]: every member is assigned by [readFromStream],
    whose result the constructor drops. *)
Definition TFM_of_stream (s : istream) : TFM :=
  let '(_, t, _) := readFromStream TFM_default s in t.

(** ** Queries

    [v[i]] on a [std::vector] does not check [i]; an access outside the
    vector is undefined behaviour, which the model reports as
    [OutOfBounds] with the table that was indexed. *)

Inductive table : Type :=
  CharInfoTable | WidthTable | HeightTable | DepthTable | ItalicTable.

Inductive result : Type :=
| Value (d : double)
| OutOfBounds (tb : table).

Definition vec_at (v : list Z) (i : Z) : option Z :=
  if i <? 0 then None else v !! Z.to_nat i.

Definition vec_size (v : list Z) : Z := Z.of_nat (length v).

(** [double TFM::getDesignSize () const] *)
Definition getDesignSize (t : TFM) : double := fix2double (_designSize t).

(** [double TFM::getCharWidth (int c) const]
<<
	if (c < _firstChar || c > _lastChar || unsigned(c-_firstChar) >= _charInfoTable.size())
		return 0;
	int index = (_charInfoTable[c-_firstChar] >> 24) & 0xFF;
	return fix2double(_widthTable[index]) * fix2double(_designSize);
>> *)
Definition getCharWidth (t : TFM) (c : Z) : result :=
  if (c <? _firstChar t) || (c >? _lastChar t)
     || (unsigned (c - _firstChar t) >=? vec_size (_charInfoTable t))
  then Value dzero
  else
    match vec_at (_charInfoTable t) (c - _firstChar t) with
    | None => OutOfBounds CharInfoTable
    | Some w =>
        let index := Z.land (Z.shiftr w 24) 0xFF in
        match vec_at (_widthTable t) index with
        | None => OutOfBounds WidthTable
        | Some e => Value (dmul (fix2double (FixWord e)) (fix2double (_designSize t)))
        end
    end.

(** [double TFM::getCharHeight (int c) const]: index
    [(_charInfoTable[c-_firstChar] >> 20) & 0x0F] into [_heightTable]. *)
Definition getCharHeight (t : TFM) (c : Z) : result :=
  if (c <? _firstChar t) || (c >? _lastChar t)
     || (unsigned (c - _firstChar t) >=? vec_size (_charInfoTable t))
  then Value dzero
  else
    match vec_at (_charInfoTable t) (c - _firstChar t) with
    | None => OutOfBounds CharInfoTable
    | Some w =>
        let index := Z.land (Z.shiftr w 20) 0x0F in
        match vec_at (_heightTable t) index with
        | None => OutOfBounds HeightTable
        | Some e => Value (dmul (fix2double (FixWord e)) (fix2double (_designSize t)))
        end
    end.

(** [double TFM::getCharDepth (int c) const]: index
    [(_charInfoTable[c-_firstChar] >> 16) & 0x0F] into [_depthTable]. *)
Definition getCharDepth (t : TFM) (c : Z) : result :=
  if (c <? _firstChar t) || (c >? _lastChar t)
     || (unsigned (c - _firstChar t) >=? vec_size (_charInfoTable t))
  then Value dzero
  else
    match vec_at (_charInfoTable t) (c - _firstChar t) with
    | None => OutOfBounds CharInfoTable
    | Some w =>
        let index := Z.land (Z.shiftr w 16) 0x0F in
        match vec_at (_depthTable t) index with
        | None => OutOfBounds DepthTable
        | Some e => Value (dmul (fix2double (FixWord e)) (fix2double (_designSize t)))
        end
    end.

(** [double TFM::getItalicCorr (int c) const]: index
    [(_charInfoTable[c-_firstChar] >> 10) & 0x3F] into [_italicTable]. *)
Definition getItalicCorr (t : TFM) (c : Z) : result :=
  if (c <? _firstChar t) || (c >? _lastChar t)
     || (unsigned (c - _firstChar t) >=? vec_size (_charInfoTable t))
  then Value dzero
  else
    match vec_at (_charInfoTable t) (c - _firstChar t) with
    | None => OutOfBounds CharInfoTable
    | Some w =>
        let index := Z.land (Z.shiftr w 10) 0x3F in
        match vec_at (_italicTable t) index with
        | None => OutOfBounds ItalicTable
        | Some e => Value (dmul (fix2double (FixWord e)) (fix2double (_designSize t)))
        end
    end.

(** *** The four queries as one

    The queries differ in the index expression and the metric table only. *)

Inductive metric : Type := Width | Height | Depth | Italic.

Definition query (m : metric) : TFM -> Z -> result :=
  match m with
  | Width => getCharWidth
  | Height => getCharHeight
  | Depth => getCharDepth
  | Italic => getItalicCorr
  end.

Definition out_of_range (t : TFM) (c : Z) : bool :=
  (c <? _firstChar t) || (c >? _lastChar t)
  || (unsigned (c - _firstChar t) >=? vec_size (_charInfoTable t)).

Definition index_of (m : metric) (w : Z) : Z :=
  match m with
  | Width => Z.land (Z.shiftr w 24) 0xFF
  | Height => Z.land (Z.shiftr w 20) 0x0F
  | Depth => Z.land (Z.shiftr w 16) 0x0F
  | Italic => Z.land (Z.shiftr w 10) 0x3F
  end.

Definition table_of (m : metric) : table :=
  match m with
  | Width => WidthTable
  | Height => HeightTable
  | Depth => DepthTable
  | Italic => ItalicTable
  end.

Definition metrics_of (m : metric) (t : TFM) : list Z :=
  match m with
  | Width => _widthTable t
  | Height => _heightTable t
  | Depth => _depthTable t
  | Italic => _italicTable t
  end.

(** The sub-field index of the character [c] for the metric [m] is a
    valid index into the table of [m]: the query does not reach the table
    (its guard fires), or the index taken from the char info word of [c] is
    below the size of the table. *)
Definition valid_index (m : metric) (t : TFM) (c : Z) : Prop :=
  out_of_range t c = true
  \/ exists w, vec_at (_charInfoTable t) (c - _firstChar t) = Some w
               /\ index_of m w < vec_size (metrics_of m t).

(** ** The parts of the loader

    [readFromStream] cut in two, so that statements can name the values read
    before the tables. *)

(** The values [readFromStream] reads before the tables. *)
Record preamble : Type := mk_preamble {
  p_lh : Z;
  p_firstChar : Z;
  p_lastChar : Z;
  p_nw : Z;
  p_nh : Z;
  p_nd : Z;
  p_ni : Z;
  p_checksum : Z;
  p_designSize : Z
}.

(** The first part of [readFromStream], up to the design size. *)
Definition read_preamble (s : istream) : preamble * istream :=
  let s := seekg_beg 2 s in
  let '(r, s) := read_unsigned 2 s in let lh := UInt16 r in
  let '(r, s) := read_unsigned 2 s in let firstChar := UInt16 r in
  let '(r, s) := read_unsigned 2 s in let lastChar := UInt16 r in
  let '(r, s) := read_unsigned 2 s in let nw := UInt16 r in
  let '(r, s) := read_unsigned 2 s in let nh := UInt16 r in
  let '(r, s) := read_unsigned 2 s in let nd := UInt16 r in
  let '(r, s) := read_unsigned 2 s in let ni := UInt16 r in
  let s := seekg_cur 8 s in
  let '(r, s) := read_unsigned 4 s in let checksum := UInt32 r in
  let '(r, s) := read_unsigned 4 s in let designSize := FixWord r in
  (mk_preamble lh firstChar lastChar nw nh nd ni checksum designSize, s).

(** The five [read_words] calls of [readFromStream], on the stream as the
    seek to the char info table left it. *)
Definition read_tables (t : TFM) (p : preamble) (s : istream) : TFM * istream :=
  let '(charInfoTable, s) :=
    read_words (_charInfoTable t) (p_lastChar p - p_firstChar p + 1) s in
  let '(widthTable, s) := read_words (_widthTable t) (p_nw p) s in
  let '(heightTable, s) := read_words (_heightTable t) (p_nh p) s in
  let '(depthTable, s) := read_words (_depthTable t) (p_nd p) s in
  let '(italicTable, s) := read_words (_italicTable t) (p_ni p) s in
  (mk_TFM (p_checksum p) (p_firstChar p) (p_lastChar p) (p_designSize p)
     charInfoTable widthTable heightTable depthTable italicTable, s).

(** The stream on which the tables are read. *)
Definition table_stream (s : istream) : istream :=
  seekg_beg (24 + p_lh (fst (read_preamble s)) * 4) (snd (read_preamble s)).

(** ** The layout of the char info word, as the format describes it

    The field of [len] bits that starts [off] bits below the most
    significant bit of a 32-bit word [w]. *)

Definition bit_field (w off len : Z) : Z := (w / 2 ^ (32 - off - len)) mod 2 ^ len.

Definition field_offset (m : metric) : Z :=
  match m with Width => 0 | Height => 8 | Depth => 12 | Italic => 16 end.

Definition field_width (m : metric) : Z :=
  match m with Width => 8 | Height => 4 | Depth => 4 | Italic => 6 end.

(** ** Big-endian values at absolute offsets

    The byte at offset [p] of the file, the value of the [k] bytes from
    offset [p] on with the first byte in the highest-order position, and the
    [n] consecutive 4-byte words from offset [p] on. *)

Definition byte_at (d : list byte) (p : Z) : Z :=
  match d !! Z.to_nat p with
  | Some b => Z.of_N (Byte.to_N b)
  | None => 0
  end.

Fixpoint be_value (d : list byte) (p : Z) (k : nat) : Z :=
  match k with
  | O => 0
  | S i => byte_at d p * 2 ^ (8 * Z.of_nat i) + be_value d (p + 1) i
  end.

Definition be16 (d : list byte) (p : Z) : Z := be_value d p 2.
Definition be32 (d : list byte) (p : Z) : Z := be_value d p 4.

Fixpoint words_at (d : list byte) (p : Z) (n : nat) : list Z :=
  match n with
  | O => []
  | S n' => be32 d p :: words_at d (p + 4) n'
  end.

(** ** The layout of the file, as the specification describes it

    The preamble decoded at its absolute offsets. *)

Definition preamble_at (d : list byte) : preamble :=
  mk_preamble (be16 d 2) (be16 d 4) (be16 d 6) (be16 d 8) (be16 d 10)
    (be16 d 12) (be16 d 14) (be32 d 24) (FixWord (be32 d 28)).

(** The load reads its tables from offset [24 + lh*4]: its result is that
    of the five table reads, in order, on the stream positioned there. *)
Definition loads_tables_from_offset (t : TFM) (s : istream) : Prop :=
  let d := sbuf s in
  let p := preamble_at d in
  let r := read_tables t p (mk_istream d (24 + p_lh p * 4) false false) in
  readFromStream t s = (true, fst r, snd r).

(** The font a complete file describes: the five tables are the runs of
    words that follow each other from offset [24 + lh*4] on. *)
Definition font_at_offsets (d : list byte) : TFM :=
  let p := preamble_at d in
  let nc := unsigned (p_lastChar p - p_firstChar p + 1) in
  let o_charInfo := 24 + p_lh p * 4 in
  let o_width := o_charInfo + 4 * nc in
  let o_height := o_width + 4 * p_nw p in
  let o_depth := o_height + 4 * p_nh p in
  let o_italic := o_depth + 4 * p_nd p in
  mk_TFM (p_checksum p) (p_firstChar p) (p_lastChar p) (p_designSize p)
    (words_at d o_charInfo (Z.to_nat nc))
    (words_at d o_width (Z.to_nat (p_nw p)))
    (words_at d o_height (Z.to_nat (p_nh p)))
    (words_at d o_depth (Z.to_nat (p_nd p)))
    (words_at d o_italic (Z.to_nat (p_ni p))).

(** ** Truncation, as the specification describes it

    The offset at which the last declared table ends, and the streams that
    end before it. *)

Definition declared_end (s : istream) : Z :=
  let p := fst (read_preamble s) in
  24 + p_lh p * 4
  + 4 * (unsigned (p_lastChar p - p_firstChar p + 1)
         + p_nw p + p_nh p + p_nd p + p_ni p).

Definition ends_early (s : istream) : bool :=
  Z.of_nat (length (sbuf s)) <? declared_end s.

(** What a load-level failure of [readFromStream] would be: its result
    [false]. *)
Definition reports_failure (r : bool * TFM * istream) : Prop :=
  fst (fst r) = false.

(** ** The numbers that doubles stand for

    [dyadic n k] is the normal binary64 number [n / 2^k] for an integer [n]
    of at most 53 significant bits: the mantissa is [|n|] shifted to 53
    bits.  [dyadic_value x n k] says that the double [x] is the number
    [n / 2^k]: with [x = (-1)^s * m * 2^e] and [e <= 0], that
    [(-1)^s * m * 2^k = n * 2^(-e)]. *)

Definition norm_mantissa (n : Z) : positive :=
  Z.to_pos (Z.abs n * 2 ^ (52 - Z.log2 (Z.abs n))).

Definition dyadic (n k : Z) : double :=
  if n =? 0 then S754_zero false
  else S754_finite (n <? 0) (norm_mantissa n) (Z.log2 (Z.abs n) - 52 - k).

Definition dyadic_value (x : double) (n k : Z) : Prop :=
  match x with
  | S754_zero _ => n = 0
  | S754_finite s m e =>
      e <= 0 /\ (if s then - Zpos m else Zpos m) * 2 ^ k = n * 2 ^ (- e)
  | _ => False
  end.

(** ** Synthetic streams

    Big-endian encoders, used to write test streams down. *)

Definition byte_of_Z (z : Z) : byte :=
  match Byte.of_N (Z.to_N (z mod 256)) with
  | Some b => b
  | None => x00
  end.

Definition enc16 (v : Z) : list byte :=
  [byte_of_Z (v / 2 ^ 8); byte_of_Z v].

Definition enc32 (v : Z) : list byte :=
  [byte_of_Z (v / 2 ^ 24); byte_of_Z (v / 2 ^ 16); byte_of_Z (v / 2 ^ 8); byte_of_Z v].

(** A TFM file with a two-word header (checksum and design size): the
    24-byte preamble, the header and the five tables. *)
Definition tfm_bytes (firstChar lastChar nw nh nd ni checksum designSize : Z)
    (charInfo widths heights depths italics : list Z) : list byte :=
  enc16 0 ++ enc16 2 ++ enc16 firstChar ++ enc16 lastChar
  ++ enc16 nw ++ enc16 nh ++ enc16 nd ++ enc16 ni
  ++ enc16 0 ++ enc16 0 ++ enc16 0 ++ enc16 0
  ++ enc32 checksum ++ enc32 designSize
  ++ concat (map enc32 charInfo)
  ++ concat (map enc32 widths) ++ concat (map enc32 heights)
  ++ concat (map enc32 depths) ++ concat (map enc32 italics).

(** The stream of the end-to-end scenario: characters 0 and 1, both char
    info words 0, every metric table the single word [0x00100000] and the
    design size [0x00A00000]. *)
Definition scenario_stream : istream :=
  open_stream (tfm_bytes 0 1 1 1 1 1 0 0x00A00000
                 [0; 0] [0x00100000] [0x00100000] [0x00100000] [0x00100000]).

(** The double [10.0]. *)
Definition d10 : double := S754_finite false 5629499534213120 (-49).

(** A one-character font whose char info word has width index 5, with a
    width table of one word. *)
Definition bad_index_stream : istream :=
  open_stream (tfm_bytes 0 0 1 1 1 1 0 0x00A00000
                 [0x05000000] [0x00100000] [0] [0] [0]).

(** A stream that declares two width words and ends after the first. *)
Definition truncated_stream : istream :=
  open_stream (tfm_bytes 0 0 2 1 1 1 0 0x00A00000
                 [0x01000000] [0x00100000] [] [] []).

(** A stream whose preamble declares [firstChar = 2] and [lastChar = 0]. *)
Definition inverted_stream : istream :=
  open_stream (tfm_bytes 2 0 1 1 1 1 0 0x00A00000
                 [] [0x00100000] [0] [0] [0]).

(** A 30-byte stream: the preamble with [lh = 0], a checksum, and the first
    two bytes of the design size. *)
Definition short_stream : istream :=
  open_stream (enc16 0 ++ enc16 0 ++ enc16 0 ++ enc16 0
               ++ enc16 1 ++ enc16 1 ++ enc16 1 ++ enc16 1
               ++ enc16 0 ++ enc16 0 ++ enc16 0 ++ enc16 0
               ++ enc32 0x01000000 ++ enc16 0x00A0).

(** A font that declares the characters 0 to 3 and holds one char info
    word. *)
Definition short_table_font : TFM :=
  mk_TFM 0 0 3 0x00A00000 [0] [0x00100000] [0] [0] [0].


(** ** Streams with a known number of bytes left

    [bytes_left d p a]: at offset [p] the file [d] has [a] more bytes; none
    when [p] is at or past the end. *)

Definition bytes_left (d : list byte) (p : Z) (a : nat) : Prop :=
  p + Z.of_nat a = Z.max p (Z.of_nat (length d)).

(** The word [read_unsigned(is, n)] is left with when the [get] for byte
    position [i] returns [EOF]: [0xFFFFFFFF << (8*i)] as a [UInt32]. *)
Definition eof_word (i : Z) : Z := UInt32 (Z.shiftl 0xFFFFFFFF (8 * i)).

(** ** The bytes of a file that a load reads

    The offset behind the last declared table, from the preamble at its
    absolute offsets, and the offsets the load reads: the preamble without
    the file length and the four following counts, the first two header
    words and the five tables. *)

Definition tables_end (d : list byte) : Z :=
  let p := preamble_at d in
  24 + p_lh p * 4
  + 4 * (unsigned (p_lastChar p - p_firstChar p + 1)
         + p_nw p + p_nh p + p_nd p + p_ni p).

Definition is_read (d : list byte) (p : Z) : bool :=
  ((2 <=? p) && (p <? 16)) || ((24 <=? p) && (p <? 32))
  || ((24 + p_lh (preamble_at d) * 4 <=? p) && (p <? tables_end d)).

(** ** Writing a font to a file

    The TFM file of a font: the preamble with the counts of the font's
    tables, a header of [2 + length header_rest] words that begins with the
    checksum and the design size, the five tables, and whatever follows
    them.  The file length [lf] and the counts [nl], [nk], [ne], [np] of
    the tables the reader skips are free. *)

Definition tfm_file (lf nl nk ne np : Z) (header_rest : list Z) (f : TFM)
    (trailer : list byte) : list byte :=
  enc16 lf ++ enc16 (2 + Z.of_nat (length header_rest))
  ++ enc16 (_firstChar f) ++ enc16 (_lastChar f)
  ++ enc16 (vec_size (_widthTable f)) ++ enc16 (vec_size (_heightTable f))
  ++ enc16 (vec_size (_depthTable f)) ++ enc16 (vec_size (_italicTable f))
  ++ enc16 nl ++ enc16 nk ++ enc16 ne ++ enc16 np
  ++ enc32 (_checksum f) ++ enc32 (_designSize f)
  ++ concat (map enc32 header_rest)
  ++ concat (map enc32 (_charInfoTable f))
  ++ concat (map enc32 (_widthTable f))
  ++ concat (map enc32 (_heightTable f))
  ++ concat (map enc32 (_depthTable f))
  ++ concat (map enc32 (_italicTable f))
  ++ trailer.

(** The fonts a TFM file can hold: the members in the ranges of their
    types, one char info word for each character of the range, at most
    65535 words in each metric table, and 32-bit words in the tables. *)
Record TFM_storable (f : TFM) : Prop := mk_TFM_storable {
  st_wf : TFM_wf f;
  st_checksum : UInt32_range (_checksum f);
  st_chars : vec_size (_charInfoTable f) = _lastChar f - _firstChar f + 1;
  st_nw : vec_size (_widthTable f) < 2 ^ 16;
  st_nh : vec_size (_heightTable f) < 2 ^ 16;
  st_nd : vec_size (_depthTable f) < 2 ^ 16;
  st_ni : vec_size (_italicTable f) < 2 ^ 16;
  st_charInfo : Forall UInt32_range (_charInfoTable f);
  st_widths : Forall UInt32_range (_widthTable f);
  st_heights : Forall UInt32_range (_heightTable f);
  st_depths : Forall UInt32_range (_depthTable f);
  st_italics : Forall UInt32_range (_italicTable f)
}.

(** The scenario stream with another file length, other skipped counts and
    two bytes behind the italic table. *)
Definition scenario_variant : istream :=
  open_stream (tfm_file 0xFFFF 7 8 9 10 []
                 (mk_TFM 0 0 1 0x00A00000
                    [0; 0] [0x00100000] [0x00100000] [0x00100000] [0x00100000])
                 [x01; x02]).

(** A font with a negative design size and tables of different lengths. *)
Definition sample_font : TFM :=
  mk_TFM 0xDEADBEEF 65 66 (-0x00A00000)
    [0x01100400; 0x02210800] [0; 0x00080000; 0xFFF80000] [0; 0x000B0000]
    [0; 0x00030000] [0; 0x00010000; 0x00020000].

(** * Properties *)

(** ** The queries *)

Lemma query_unfold (m : metric) (t : TFM) (c : Z) :
  query m t c =
  if out_of_range t c then Value dzero
  else
    match vec_at (_charInfoTable t) (c - _firstChar t) with
    | None => OutOfBounds CharInfoTable
    | Some w =>
        match vec_at (metrics_of m t) (index_of m w) with
        | None => OutOfBounds (table_of m)
        | Some e => Value (dmul (fix2double (FixWord e)) (fix2double (_designSize t)))
        end
    end.
Proof. destruct m; reflexivity. Qed.

Lemma shift_mask_field (w sh len : Z) :
  0 <= sh -> 0 <= len ->
  Z.land (Z.shiftr w sh) (Z.ones len) = (w / 2 ^ sh) mod 2 ^ len.
Proof.
  intros Hsh Hlen.
  rewrite Z.land_ones by assumption.
  rewrite Z.shiftr_div_pow2 by assumption.
  reflexivity.
Qed.

Lemma index_of_bit_field (m : metric) (w : Z) :
  index_of m w = bit_field w (field_offset m) (field_width m).
Proof.
  unfold bit_field.
  destruct m; cbn [index_of field_offset field_width].
  - change 0xFF with (Z.ones 8). apply shift_mask_field; lia.
  - change 0x0F with (Z.ones 4). apply shift_mask_field; lia.
  - change 0x0F with (Z.ones 4). apply shift_mask_field; lia.
  - change 0x3F with (Z.ones 6). apply shift_mask_field; lia.
Qed.

(** Bit [i] of a field, counted from the field's least significant bit, is
    bit [31 - off - (len - 1 - i)] of the word, and the field has no bit
    above its width. *)
Lemma bit_field_testbit (w off len i : Z) :
  0 <= off -> 0 <= len -> off + len <= 32 -> 0 <= i ->
  Z.testbit (bit_field w off len) i =
  (i <? len) && Z.testbit w (31 - off - (len - 1 - i)).
Proof.
  intros Hoff Hlen Hsum Hi. unfold bit_field.
  rewrite Z.testbit_mod_pow2 by assumption.
  destruct (i <? len) eqn:E; [|reflexivity].
  cbn [andb]. rewrite Z.div_pow2_bits by lia.
  f_equal. lia.
Qed.

Lemma bit_field_range (w off len : Z) :
  0 <= len -> 0 <= bit_field w off len < 2 ^ len.
Proof.
  intros Hlen. unfold bit_field. apply Z.mod_pos_bound.
  apply Z.pow_pos_nonneg; lia.
Qed.

(** C4: for every char info word the width, height, depth and italic
    queries index their tables with the fields of 8, 4, 4 and 6 bits at
    offsets 0, 8, 12 and 16 from the most significant bit: each shift and
    mask of the source is that field, bit [i] of an index is bit
    [off + (len - 1 - i)] of the word counted from the most significant one,
    and each query is the lookup at that field. *)
Theorem char_info_layout (w : Z) :
  Z.land (Z.shiftr w 24) 0xFF = bit_field w 0 8
  /\ Z.land (Z.shiftr w 20) 0x0F = bit_field w 8 4
  /\ Z.land (Z.shiftr w 16) 0x0F = bit_field w 12 4
  /\ Z.land (Z.shiftr w 10) 0x3F = bit_field w 16 6
  /\ (forall m i,
        Z.testbit (index_of m w) i =
        (0 <=? i) && (i <? field_width m)
        && Z.testbit w (31 - field_offset m - (field_width m - 1 - i)))
  /\ (forall m t c,
        query m t c =
        if out_of_range t c then Value dzero
        else
          match vec_at (_charInfoTable t) (c - _firstChar t) with
          | None => OutOfBounds CharInfoTable
          | Some w' =>
              match vec_at (metrics_of m t)
                      (bit_field w' (field_offset m) (field_width m)) with
              | None => OutOfBounds (table_of m)
              | Some e =>
                  Value (dmul (fix2double (FixWord e)) (fix2double (_designSize t)))
              end
          end).
Proof.
  split; [exact (index_of_bit_field Width w)|].
  split; [exact (index_of_bit_field Height w)|].
  split; [exact (index_of_bit_field Depth w)|].
  split; [exact (index_of_bit_field Italic w)|].
  split.
  - intros m i. destruct (0 <=? i) eqn:Hi.
    + apply Z.leb_le in Hi. rewrite index_of_bit_field.
      apply bit_field_testbit; destruct m; cbn; lia.
    + apply Z.leb_gt in Hi. apply Z.testbit_neg_r. exact Hi.
  - intros m t c. rewrite query_unfold.
    destruct (out_of_range t c); [reflexivity|].
    destruct (vec_at (_charInfoTable t) (c - _firstChar t)) as [w'|]; [|reflexivity].
    rewrite index_of_bit_field. reflexivity.
Qed.

Lemma out_of_range_zero (m : metric) (t : TFM) (c : Z) :
  out_of_range t c = true -> query m t c = Value dzero.
Proof. intros H. rewrite query_unfold, H. reflexivity. Qed.

(** C5: for every font and every character code below [firstChar] or above
    [lastChar], the four queries return [0.0]. *)
Theorem outside_range_zero (t : TFM) (c : Z) :
  c < _firstChar t \/ c > _lastChar t ->
  getCharWidth t c = Value dzero
  /\ getCharHeight t c = Value dzero
  /\ getCharDepth t c = Value dzero
  /\ getItalicCorr t c = Value dzero.
Proof.
  intros H.
  assert (Hout : out_of_range t c = true).
  { unfold out_of_range.
    destruct H as [H|H].
    - apply Z.ltb_lt in H. rewrite H. reflexivity.
    - apply Z.gtb_gt in H. rewrite H. apply orb_true_iff. left.
      apply orb_true_r. }
  repeat split.
  - exact (out_of_range_zero Width t c Hout).
  - exact (out_of_range_zero Height t c Hout).
  - exact (out_of_range_zero Depth t c Hout).
  - exact (out_of_range_zero Italic t c Hout).
Qed.

Lemma outside_range_zero_witness :
  (2 < _firstChar (TFM_of_stream scenario_stream)
   \/ 2 > _lastChar (TFM_of_stream scenario_stream))
  /\ getCharWidth (TFM_of_stream scenario_stream) 2 = Value dzero
  /\ getCharHeight (TFM_of_stream scenario_stream) 2 = Value dzero
  /\ getCharDepth (TFM_of_stream scenario_stream) 2 = Value dzero
  /\ getItalicCorr (TFM_of_stream scenario_stream) 2 = Value dzero.
Proof.
  assert (H : 2 < _firstChar (TFM_of_stream scenario_stream)
              \/ 2 > _lastChar (TFM_of_stream scenario_stream)).
  { right. vm_compute. reflexivity. }
  split; [exact H|].
  exact (outside_range_zero (TFM_of_stream scenario_stream) 2 H).
Defined.

Lemma unsigned_small (x : Z) : 0 <= x < 2 ^ 32 -> unsigned x = x.
Proof. intros H. unfold unsigned. apply Z.mod_small. exact H. Qed.

Lemma vec_at_Some (v : list Z) (i : Z) :
  0 <= i < vec_size v -> exists w, vec_at v i = Some w.
Proof.
  intros [Hlo Hhi]. unfold vec_at, vec_size in *.
  destruct (i <? 0) eqn:E; [apply Z.ltb_lt in E; lia|].
  destruct (lookup_lt_is_Some_2 v (Z.to_nat i)) as [w Hw]; [lia|].
  exists w. exact Hw.
Qed.

Lemma vec_at_None (v : list Z) (i : Z) :
  vec_size v <= i -> vec_at v i = None.
Proof.
  intros H. unfold vec_at, vec_size in *.
  destruct (i <? 0); [reflexivity|].
  apply lookup_ge_None_2. lia.
Qed.

(** Inside the guard the offset into the char info table is in bounds. *)
Lemma in_range_offset (t : TFM) (c : Z) :
  TFM_wf t -> out_of_range t c = false ->
  _firstChar t <= c <= _lastChar t
  /\ 0 <= c - _firstChar t < vec_size (_charInfoTable t).
Proof.
  intros [Hf Hl _] H. unfold out_of_range in H.
  apply orb_false_iff in H. destruct H as [H H3].
  apply orb_false_iff in H. destruct H as [H1 H2].
  apply Z.ltb_ge in H1. rewrite Z.gtb_ltb in H2. apply Z.ltb_ge in H2.
  rewrite Z.geb_leb in H3. apply Z.leb_gt in H3.
  unfold UInt16_range in *.
  rewrite unsigned_small in H3 by lia.
  lia.
Qed.

(** C10: the queries compare the offset [c - firstChar] with the size of
    the char info table the font holds: a character at or beyond the end of
    that table gets [0.0] from every query, whatever the declared range,
    and no query indexes the char info table out of bounds. *)
Theorem char_info_size_checked (t : TFM) (c : Z) :
  TFM_wf t ->
  (forall m, query m t c <> OutOfBounds CharInfoTable)
  /\ (vec_size (_charInfoTable t) <= c - _firstChar t ->
      getCharWidth t c = Value dzero
      /\ getCharHeight t c = Value dzero
      /\ getCharDepth t c = Value dzero
      /\ getItalicCorr t c = Value dzero).
Proof.
  intros Hwf. split.
  - intros m. rewrite query_unfold.
    destruct (out_of_range t c) eqn:E; [discriminate|].
    destruct (in_range_offset t c Hwf E) as [_ Hoff].
    destruct (vec_at_Some _ _ Hoff) as [w Hw]. rewrite Hw.
    destruct (vec_at (metrics_of m t) (index_of m w)); [discriminate|].
    destruct m; discriminate.
  - intros Hsize.
    assert (Hout : out_of_range t c = true).
    { destruct (out_of_range t c) eqn:E; [reflexivity|].
      destruct (in_range_offset t c Hwf E) as [_ Hoff]. lia. }
    repeat split.
    + exact (out_of_range_zero Width t c Hout).
    + exact (out_of_range_zero Height t c Hout).
    + exact (out_of_range_zero Depth t c Hout).
    + exact (out_of_range_zero Italic t c Hout).
Qed.

Lemma char_info_size_checked_witness :
  TFM_wf short_table_font
  /\ vec_size (_charInfoTable short_table_font) <= 2 - _firstChar short_table_font
  /\ getCharWidth short_table_font 2 = Value dzero
  /\ getCharHeight short_table_font 2 = Value dzero
  /\ getCharDepth short_table_font 2 = Value dzero
  /\ getItalicCorr short_table_font 2 = Value dzero.
Proof.
  assert (Hwf : TFM_wf short_table_font).
  { split; unfold UInt16_range, int_range; cbn; lia. }
  assert (Hsize : vec_size (_charInfoTable short_table_font)
                  <= 2 - _firstChar short_table_font).
  { unfold vec_size. cbn. lia. }
  split; [exact Hwf|]. split; [exact Hsize|].
  exact (proj2 (char_info_size_checked short_table_font 2 Hwf) Hsize).
Defined.

(** A sub-field that is no index into its metric table makes the query
    read outside that table. *)
Lemma invalid_index_out_of_bounds (m : metric) (t : TFM) (c w : Z) :
  out_of_range t c = false ->
  vec_at (_charInfoTable t) (c - _firstChar t) = Some w ->
  vec_size (metrics_of m t) <= index_of m w ->
  query m t c = OutOfBounds (table_of m).
Proof.
  intros Hout Hw Hidx. rewrite query_unfold, Hout, Hw.
  rewrite vec_at_None by exact Hidx. reflexivity.
Qed.

(** C1: in the font loaded from [bad_index_stream] character 0 is in range,
    its char info word has width index 5, the width table has one word, and
    [getCharWidth] reads [_widthTable[5]]: an access outside the table
    instead of the result [0.0]. *)
Theorem bad_width_index_read :
  let t := TFM_of_stream bad_index_stream in
  _firstChar t <= 0 <= _lastChar t
  /\ vec_at (_charInfoTable t) (0 - _firstChar t) = Some 0x05000000
  /\ Z.land (Z.shiftr 0x05000000 24) 0xFF = 5
  /\ vec_size (_widthTable t) = 1
  /\ getCharWidth t 0 = OutOfBounds WidthTable
  /\ getCharWidth t 0 <> Value dzero.
Proof.
  vm_compute. repeat split; try discriminate; reflexivity.
Qed.

(** ** read_unsigned at the end of the input *)

(** C7: on a stream that holds the single byte [0x12], reading a 2-byte
    value returns [0xFFFFFFFF]: the failed [get] returns [EOF], which is
    or-ed in as 32 one bits.  With a zero for the missing byte the value
    would be [0x1200]. *)
Theorem read_unsigned_short_read :
  fst (read_unsigned 2 (open_stream [x12])) = 0xFFFFFFFF
  /\ fst (read_unsigned 2 (open_stream [x12])) <> 0x1200
  /\ fst (read_unsigned 4 (open_stream [x12; x34])) = 0xFFFFFF00
  /\ fst (read_unsigned 4 (open_stream [x12; x34])) <> 0x12340000.
Proof.
  vm_compute. repeat split; try discriminate; reflexivity.
Qed.

(** Once [eofbit] is set, [read_unsigned] reads nothing and returns 0. *)
Lemma read_unsigned_after_eof (n : Z) (s : istream) :
  eofbit s = true -> read_unsigned n s = (0, s).
Proof.
  intros H. unfold read_unsigned.
  destruct (Z.to_nat n) as [|k]; cbn [read_unsigned_loop]; [reflexivity|].
  unfold eof. rewrite H. reflexivity.
Qed.

(** On a good stream at the end of the input, [read_unsigned] of [n] bytes
    (1 to 4) returns [0xFFFFFFFF << 8*(n-1)]: the [EOF] that the first
    [get] returns, shifted to the position of the first byte. *)
Lemma read_unsigned_at_end (n : Z) (d : list byte) (p : Z) :
  1 <= n <= 4 -> Z.of_nat (length d) <= p ->
  fst (read_unsigned n (mk_istream d p false false))
  = UInt32 (Z.shiftl 0xFFFFFFFF (8 * (n - 1))).
Proof.
  intros Hn Hp. unfold read_unsigned.
  destruct (Z.to_nat n) as [|k] eqn:E; [lia|].
  cbn [read_unsigned_loop eof eofbit].
  assert (Hget : get (mk_istream d p false false)
                 = (EOF, mk_istream d p true true)).
  { unfold get, good. cbn [eofbit failbit sbuf spos negb andb].
    destruct (0 <=? p); [|reflexivity].
    rewrite lookup_ge_None_2 by lia. reflexivity. }
  rewrite Hget.
  assert (Hk : Z.of_nat k = n - 1) by lia. rewrite Hk.
  change (UInt32 EOF) with 0xFFFFFFFF.
  rewrite Z.lor_0_l.
  destruct k as [|k']; cbn [read_unsigned_loop fst eof eofbit];
    unfold UInt32; rewrite Z.mod_mod by lia; reflexivity.
Qed.

(** ** The loader *)

Ltac destruct_read_unsigned :=
  repeat match goal with
         | |- context [read_unsigned ?n ?s] => destruct (read_unsigned n s)
         end.

Ltac destruct_read_words :=
  repeat match goal with
         | |- context [read_words ?v ?n ?s] => destruct (read_words v n s)
         end.

Lemma readFromStream_split (t : TFM) (s : istream) :
  readFromStream t s =
  (true,
   fst (read_tables t (fst (read_preamble s)) (table_stream s)),
   snd (read_tables t (fst (read_preamble s)) (table_stream s))).
Proof.
  unfold readFromStream, table_stream, read_preamble, read_tables.
  generalize (seekg_beg 2 s). intros s0.
  destruct_read_unsigned.
  cbn [fst snd p_lh p_firstChar p_lastChar p_nw p_nh p_nd p_ni
       p_checksum p_designSize].
  destruct_read_words. reflexivity.
Qed.

Lemma TFM_of_stream_split (s : istream) :
  TFM_of_stream s = fst (read_tables TFM_default (fst (read_preamble s)) (table_stream s)).
Proof. unfold TFM_of_stream. rewrite readFromStream_split. reflexivity. Qed.

Lemma UInt16_in_range (x : Z) : UInt16_range (UInt16 x).
Proof. unfold UInt16_range, UInt16. apply Z.mod_pos_bound. lia. Qed.

Lemma UInt32_in_range (x : Z) : UInt32_range (UInt32 x).
Proof. unfold UInt32_range, UInt32. apply Z.mod_pos_bound. lia. Qed.

Lemma FixWord_in_range (x : Z) : int_range (FixWord x).
Proof.
  unfold int_range, FixWord.
  pose proof (Z.mod_pos_bound (x + 2 ^ 31) (2 ^ 32) ltac:(lia)). lia.
Qed.

Lemma read_preamble_ranges (s : istream) :
  let p := fst (read_preamble s) in
  UInt16_range (p_lh p) /\ UInt16_range (p_firstChar p)
  /\ UInt16_range (p_lastChar p) /\ UInt16_range (p_nw p)
  /\ UInt16_range (p_nh p) /\ UInt16_range (p_nd p) /\ UInt16_range (p_ni p)
  /\ UInt32_range (p_checksum p) /\ int_range (p_designSize p).
Proof.
  unfold read_preamble. generalize (seekg_beg 2 s). intros s0.
  destruct_read_unsigned. cbn.
  repeat split; try apply UInt16_in_range; try apply UInt32_in_range;
    apply FixWord_in_range.
Qed.

(** *** Table sizes *)

Lemma read_words_loop_length (k i : nat) (v : list Z) (s : istream) :
  length (fst (read_words_loop k i v s)) = length v.
Proof.
  revert i v s. induction k as [|k IH]; intros i v s; cbn [read_words_loop].
  - reflexivity.
  - destruct (read_unsigned 4 s) as [w s']. rewrite IH.
    apply length_insert.
Qed.

Lemma vec_resize_length (n : nat) (v : list Z) : length (vec_resize n v) = n.
Proof.
  unfold vec_resize. rewrite length_app, length_take, length_replicate. lia.
Qed.

Lemma unsigned_nonneg (x : Z) : 0 <= unsigned x < 2 ^ 32.
Proof. unfold unsigned. apply Z.mod_pos_bound. lia. Qed.

(** [read_words] leaves exactly [n] words, whatever the stream holds. *)
Lemma read_words_size (v : list Z) (n : Z) (s : istream) :
  vec_size (fst (read_words v n s)) = unsigned n.
Proof.
  unfold read_words, vec_size.
  rewrite read_words_loop_length, vec_resize_length.
  pose proof (unsigned_nonneg n). lia.
Qed.

(** [read_words] replaces the vector: its result does not depend on what
    the vector held. *)
Lemma read_words_replaces (v v' : list Z) (n : Z) (s : istream) :
  read_words v n s = read_words v' n s.
Proof. reflexivity. Qed.

Lemma read_tables_sizes (t : TFM) (p : preamble) (s : istream) :
  let f := fst (read_tables t p s) in
  vec_size (_charInfoTable f) = unsigned (p_lastChar p - p_firstChar p + 1)
  /\ vec_size (_widthTable f) = unsigned (p_nw p)
  /\ vec_size (_heightTable f) = unsigned (p_nh p)
  /\ vec_size (_depthTable f) = unsigned (p_nd p)
  /\ vec_size (_italicTable f) = unsigned (p_ni p).
Proof.
  unfold read_tables.
  pose proof (read_words_size (_charInfoTable t)
                (p_lastChar p - p_firstChar p + 1) s) as H1.
  destruct (read_words (_charInfoTable t) _ s) as [ci s1].
  pose proof (read_words_size (_widthTable t) (p_nw p) s1) as H2.
  destruct (read_words (_widthTable t) _ s1) as [wt s2].
  pose proof (read_words_size (_heightTable t) (p_nh p) s2) as H3.
  destruct (read_words (_heightTable t) _ s2) as [ht s3].
  pose proof (read_words_size (_depthTable t) (p_nd p) s3) as H4.
  destruct (read_words (_depthTable t) _ s3) as [dt s4].
  pose proof (read_words_size (_italicTable t) (p_ni p) s4) as H5.
  destruct (read_words (_italicTable t) _ s4) as [it s5].
  cbn in *. auto.
Qed.

Lemma read_tables_scalars (t : TFM) (p : preamble) (s : istream) :
  let f := fst (read_tables t p s) in
  _checksum f = p_checksum p /\ _firstChar f = p_firstChar p
  /\ _lastChar f = p_lastChar p /\ _designSize f = p_designSize p.
Proof.
  unfold read_tables. destruct_read_words. cbn. auto.
Qed.

(** A loaded font has its members in the ranges of their types. *)
Lemma loaded_wf (t : TFM) (s : istream) :
  TFM_wf (snd (fst (readFromStream t s))).
Proof.
  rewrite readFromStream_split. cbn [fst snd].
  destruct (read_tables_scalars t (fst (read_preamble s)) (table_stream s))
    as (_ & Hf & Hl & Hd).
  destruct (read_preamble_ranges s) as (_ & Rf & Rl & _ & _ & _ & _ & _ & Rd).
  split.
  - rewrite Hf. exact Rf.
  - rewrite Hl. exact Rl.
  - rewrite Hd. exact Rd.
Qed.

(** C2 fails as stated: [truncated_stream] declares a width table of two
    words and ends after the first, and the load returns [true] with a
    two-word width table. *)
Lemma truncated_load_succeeds :
  ends_early truncated_stream = true
  /\ p_nw (fst (read_preamble truncated_stream)) = 2
  /\ Z.of_nat (length (sbuf truncated_stream))
     = 24 + 2 * 4 + 4 * 1 + 4 * 1
  /\ ~ reports_failure (readFromStream TFM_default truncated_stream)
  /\ fst (fst (readFromStream TFM_default truncated_stream)) = true
  /\ vec_size (_widthTable (TFM_of_stream truncated_stream)) = 2.
Proof.
  unfold reports_failure. vm_compute.
  repeat split; try discriminate; reflexivity.
Qed.

(** With an inverted range every query returns [0.0]. *)
Lemma inverted_range_zero (m : metric) (t : TFM) (c : Z) :
  _lastChar t < _firstChar t -> query m t c = Value dzero.
Proof.
  intros H. apply out_of_range_zero. unfold out_of_range.
  destruct (c <? _firstChar t) eqn:E1; [reflexivity|].
  apply Z.ltb_ge in E1.
  assert (E2 : (c >? _lastChar t) = true) by (apply Z.gtb_gt; lia).
  rewrite E2. reflexivity.
Qed.

(** With [lastChar = firstChar - 1] the char info table is empty. *)
Lemma adjacent_range_empty (t : TFM) (s : istream) :
  let p := fst (read_preamble s) in
  p_lastChar p = p_firstChar p - 1 ->
  _charInfoTable (snd (fst (readFromStream t s))) = [].
Proof.
  cbv zeta. intros H. rewrite readFromStream_split. cbn [fst snd].
  destruct (read_tables_sizes t (fst (read_preamble s)) (table_stream s))
    as (H1 & _).
  rewrite H in H1. replace (p_firstChar _ - 1 - p_firstChar _ + 1) with 0 in H1 by lia.
  unfold vec_size in H1. change (unsigned 0) with 0 in H1.
  apply nil_length_inv. lia.
Qed.

(** C6: the preamble of [inverted_stream] declares [firstChar = 2] and
    [lastChar = 0]; the load returns [true], and the char info table of the
    font has [unsigned(0 - 2 + 1) = 4294967295] words instead of none. *)
Theorem inverted_range_table_size :
  let p := fst (read_preamble inverted_stream) in
  let t := TFM_of_stream inverted_stream in
  p_lastChar p < p_firstChar p
  /\ _firstChar t = 2 /\ _lastChar t = 0
  /\ vec_size (_charInfoTable t) = 4294967295
  /\ _charInfoTable t <> [].
Proof.
  cbv zeta. rewrite TFM_of_stream_split.
  destruct (read_tables_sizes TFM_default (fst (read_preamble inverted_stream))
              (table_stream inverted_stream)) as (Hc & _).
  destruct (read_tables_scalars TFM_default (fst (read_preamble inverted_stream))
              (table_stream inverted_stream)) as (_ & Hf & Hl & _).
  assert (Hsize : unsigned (p_lastChar (fst (read_preamble inverted_stream))
                            - p_firstChar (fst (read_preamble inverted_stream)) + 1)
                  = 4294967295) by (vm_compute; reflexivity).
  rewrite Hsize in Hc.
  split; [vm_compute; reflexivity|].
  split; [rewrite Hf; vm_compute; reflexivity|].
  split; [rewrite Hl; vm_compute; reflexivity|].
  split; [exact Hc|].
  intros Hnil. rewrite Hnil in Hc. unfold vec_size in Hc. cbn [length] in Hc. lia.
Qed.

(** *** Determinism *)

Lemma seek_to_unfailed (target : Z) (s : istream) :
  failbit s = false -> 0 <= target ->
  seek_to target s = mk_istream (sbuf s) target false false.
Proof.
  intros Hf Ht. unfold seek_to. rewrite Hf.
  destruct (target <? 0) eqn:E; [apply Z.ltb_lt in E; lia|reflexivity].
Qed.

(** On streams that did not fail the result of the load depends on the
    bytes alone: not on the read position or [eofbit], and not on what the
    font object held. *)
Lemma readFromStream_bytes (t1 t2 : TFM) (s1 s2 : istream) :
  sbuf s1 = sbuf s2 -> failbit s1 = false -> failbit s2 = false ->
  readFromStream t1 s1 = readFromStream t2 s2.
Proof.
  intros Hb H1 H2.
  assert (Hs : seekg_beg 2 s1 = seekg_beg 2 s2).
  { unfold seekg_beg. rewrite !seek_to_unfailed by (assumption || lia).
    rewrite Hb. reflexivity. }
  unfold readFromStream. rewrite Hs. reflexivity.
Qed.

Lemma good_unfailed (s : istream) : good s = true -> failbit s = false.
Proof.
  unfold good. intros H. apply andb_true_iff in H. destruct H as [_ H].
  destruct (failbit s); [discriminate|reflexivity].
Qed.

(** Where the sub-field index is valid the query returns a value. *)
Lemma valid_index_value (m : metric) (t : TFM) (c : Z) :
  valid_index m t c -> exists v, query m t c = Value v.
Proof.
  intros [Hout | (w & Hw & Hlt)]; rewrite query_unfold.
  - rewrite Hout. eexists. reflexivity.
  - destruct (out_of_range t c); [eexists; reflexivity|].
    rewrite Hw.
    assert (Hidx : 0 <= index_of m w).
    { rewrite index_of_bit_field. unfold bit_field.
      apply Z.mod_pos_bound. destruct m; cbn; lia. }
    destruct (vec_at_Some (metrics_of m t) (index_of m w) ltac:(lia)) as [e He].
    rewrite He. eexists. reflexivity.
Qed.

(** The font of [bad_index_stream], loaded twice from the same bytes:
    character 0 is in the range and has a char info word, its width index 5
    is not a valid index into the one-word width table, and on both fonts
    the width query reads outside the table, so that no value is
    determined. *)
Lemma bad_index_both_loads :
  let s1 := bad_index_stream in
  let s2 := mk_istream (sbuf bad_index_stream) 17 false false in
  let f1 := snd (fst (readFromStream TFM_default s1)) in
  let f2 := snd (fst (readFromStream short_table_font s2)) in
  _firstChar f1 <= 0 <= _lastChar f1
  /\ ~ valid_index Width f1 0
  /\ getCharWidth f1 0 = OutOfBounds WidthTable
  /\ getCharWidth f2 0 = OutOfBounds WidthTable
  /\ ~ (exists v, getCharWidth f1 0 = Value v /\ getCharWidth f2 0 = Value v).
Proof.
  cbv zeta.
  split; [vm_compute; split; discriminate|].
  split.
  - intros [Hout | (w & Hw & Hlt)].
    + vm_compute in Hout. discriminate Hout.
    + vm_compute in Hw. injection Hw as <-. vm_compute in Hlt. discriminate Hlt.
  - split; [vm_compute; reflexivity|]. split; [vm_compute; reflexivity|].
    intros (v & Hv & _). vm_compute in Hv. discriminate Hv.
Qed.

(** C9: two loads of the same bytes, each from a stream in good state, give
    the same font, whatever the read positions of the streams and the
    previous contents of the font objects are.  The design sizes agree, and
    for every character code whose sub-field index is a valid index into
    its table, each of the four queries returns a value, the same on both
    fonts.  Nothing is said of a query whose index is not valid: it reads
    outside its table. *)
Theorem load_deterministic (t1 t2 : TFM) (s1 s2 : istream) :
  sbuf s1 = sbuf s2 -> good s1 = true -> good s2 = true ->
  let f1 := snd (fst (readFromStream t1 s1)) in
  let f2 := snd (fst (readFromStream t2 s2)) in
  f1 = f2
  /\ getDesignSize f1 = getDesignSize f2
  /\ forall c,
       (valid_index Width f1 c ->
        exists v, getCharWidth f1 c = Value v /\ getCharWidth f2 c = Value v)
       /\ (valid_index Height f1 c ->
           exists v, getCharHeight f1 c = Value v /\ getCharHeight f2 c = Value v)
       /\ (valid_index Depth f1 c ->
           exists v, getCharDepth f1 c = Value v /\ getCharDepth f2 c = Value v)
       /\ (valid_index Italic f1 c ->
           exists v, getItalicCorr f1 c = Value v /\ getItalicCorr f2 c = Value v).
Proof.
  intros Hb H1 H2. cbv zeta.
  rewrite (readFromStream_bytes t1 t2 s1 s2 Hb
             (good_unfailed s1 H1) (good_unfailed s2 H2)).
  split; [reflexivity|]. split; [reflexivity|].
  intros c.
  repeat split; intros Hv; destruct (valid_index_value _ _ _ Hv) as [v Hq];
    exists v; split; exact Hq.
Qed.

Lemma load_deterministic_witness :
  let s1 := scenario_stream in
  let s2 := mk_istream (sbuf scenario_stream) 17 false false in
  let f1 := snd (fst (readFromStream TFM_default s1)) in
  let f2 := snd (fst (readFromStream short_table_font s2)) in
  sbuf s1 = sbuf s2 /\ good s1 = true /\ good s2 = true
  /\ valid_index Width f1 1
  /\ f1 = f2
  /\ getDesignSize f1 = getDesignSize f2
  /\ exists v, getCharWidth f1 1 = Value v /\ getCharWidth f2 1 = Value v.
Proof.
  cbv zeta.
  assert (Hv : valid_index Width
                 (snd (fst (readFromStream TFM_default scenario_stream))) 1).
  { right. exists 0. split; [vm_compute; reflexivity|vm_compute; reflexivity]. }
  split; [reflexivity|]. split; [reflexivity|]. split; [reflexivity|].
  split; [exact Hv|].
  destruct (load_deterministic TFM_default short_table_font scenario_stream
              (mk_istream (sbuf scenario_stream) 17 false false)
              eq_refl eq_refl eq_refl) as (Hf & Hd & Hq).
  split; [exact Hf|]. split; [exact Hd|].
  exact (proj1 (Hq 1) Hv).
Defined.

(** ** Reading where the bytes are present *)

Lemma byte_at_range (d : list byte) (p : Z) : 0 <= byte_at d p < 256.
Proof.
  unfold byte_at. destruct (d !! Z.to_nat p) as [b|]; [|lia].
  pose proof (Byte.to_N_bounded b). lia.
Qed.

Lemma get_ok (d : list byte) (p : Z) :
  0 <= p < Z.of_nat (length d) ->
  get (mk_istream d p false false)
  = (byte_at d p, mk_istream d (p + 1) false false).
Proof.
  intros [Hlo Hhi]. unfold get, good, byte_at. cbn [eofbit failbit sbuf spos negb andb].
  destruct (0 <=? p) eqn:E; [|apply Z.leb_gt in E; lia].
  destruct (lookup_lt_is_Some_2 d (Z.to_nat p)) as [b Hb]; [lia|].
  rewrite Hb. reflexivity.
Qed.

Lemma lor_disjoint (a b m : Z) :
  0 <= m -> a mod 2 ^ m = 0 -> 0 <= b < 2 ^ m -> Z.lor a b = a + b.
Proof.
  intros Hm Ha Hb.
  assert (Hland : Z.land a b = 0).
  { apply Z.bits_inj'. intros n Hn.
    rewrite Z.land_spec, Z.bits_0.
    destruct (Z.lt_ge_cases n m) as [Hlt|Hge].
    - rewrite <- (Z.mod_pow2_bits_low a m n) by lia.
      rewrite Ha, Z.bits_0. reflexivity.
    - rewrite <- (Z.mod_small b (2 ^ m)) by lia.
      rewrite Z.mod_pow2_bits_high by lia. apply andb_false_r. }
  pose proof (Z.add_lor_land a b) as H. lia.
Qed.

(** One turn of the loop of [read_unsigned] on a byte that was read: the
    byte lands in position [i], above it nothing changes. *)
Lemma or_byte (ret b : Z) (i : nat) :
  (i <= 3)%nat -> 0 <= b < 256 -> 0 <= ret < 2 ^ 32 ->
  ret mod 2 ^ (8 * Z.of_nat (S i)) = 0 ->
  UInt32 (Z.lor ret (UInt32 (Z.shiftl (UInt32 b) (8 * Z.of_nat i))))
  = ret + b * 2 ^ (8 * Z.of_nat i)
  /\ 0 <= ret + b * 2 ^ (8 * Z.of_nat i) < 2 ^ 32
  /\ (ret + b * 2 ^ (8 * Z.of_nat i)) mod 2 ^ (8 * Z.of_nat i) = 0.
Proof.
  intros Hi Hb Hret Hmod.
  assert (Hb32 : UInt32 b = b) by (unfold UInt32; apply Z.mod_small; lia).
  rewrite Hb32, Z.shiftl_mul_pow2 by lia.
  assert (Hsh : 0 <= b * 2 ^ (8 * Z.of_nat i) < 2 ^ (8 * Z.of_nat (S i))).
  { replace (8 * Z.of_nat (S i)) with (8 + 8 * Z.of_nat i) by lia.
    rewrite Z.pow_add_r by lia. change (2 ^ 8) with 256.
    assert (0 < 2 ^ (8 * Z.of_nat i)) by (apply Z.pow_pos_nonneg; lia). nia. }
  assert (Hle : 2 ^ (8 * Z.of_nat (S i)) <= 2 ^ 32)
    by (apply Z.pow_le_mono_r; lia).
  assert (Hsh32 : UInt32 (b * 2 ^ (8 * Z.of_nat i)) = b * 2 ^ (8 * Z.of_nat i))
    by (unfold UInt32; apply Z.mod_small; lia).
  rewrite Hsh32, (lor_disjoint ret _ (8 * Z.of_nat (S i))) by (assumption || lia).
  assert (Hpos : 0 < 2 ^ (8 * Z.of_nat (S i))) by (apply Z.pow_pos_nonneg; lia).
  assert (Hdiv : exists q, ret = q * 2 ^ (8 * Z.of_nat (S i))).
  { exists (ret / 2 ^ (8 * Z.of_nat (S i))).
    pose proof (Z.div_mod ret (2 ^ (8 * Z.of_nat (S i))) ltac:(lia)). lia. }
  destruct Hdiv as [q Hq].
  assert (Hquot : exists r, 2 ^ 32 = r * 2 ^ (8 * Z.of_nat (S i))).
  { exists (2 ^ (32 - 8 * Z.of_nat (S i))).
    rewrite <- Z.pow_add_r by lia. f_equal. lia. }
  destruct Hquot as [r Hr].
  assert (Hbound : ret + b * 2 ^ (8 * Z.of_nat i) < 2 ^ 32).
  { assert (q < r) by nia. nia. }
  split; [unfold UInt32; apply Z.mod_small; lia|].
  split; [lia|].
  replace (8 * Z.of_nat (S i)) with (8 * Z.of_nat i + 8) in Hq by lia.
  rewrite Z.pow_add_r in Hq by lia.
  replace (ret + b * 2 ^ (8 * Z.of_nat i))
    with ((q * 2 ^ 8 + b) * 2 ^ (8 * Z.of_nat i)) by lia.
  apply Z.mod_mul.
  assert (0 < 2 ^ (8 * Z.of_nat i)) by (apply Z.pow_pos_nonneg; lia). lia.
Qed.

Lemma read_unsigned_loop_ok (k : nat) (d : list byte) (p ret : Z) :
  (k <= 4)%nat -> 0 <= p -> p + Z.of_nat k <= Z.of_nat (length d) ->
  0 <= ret < 2 ^ 32 -> ret mod 2 ^ (8 * Z.of_nat k) = 0 ->
  read_unsigned_loop k ret (mk_istream d p false false)
  = (ret + be_value d p k, mk_istream d (p + Z.of_nat k) false false).
Proof.
  revert p ret. induction k as [|i IH]; intros p ret Hk Hp Hlen Hret Hmod.
  - cbn [read_unsigned_loop be_value Z.of_nat]. rewrite !Z.add_0_r. reflexivity.
  - cbn [read_unsigned_loop be_value eof eofbit].
    rewrite get_ok by lia.
    destruct (or_byte ret (byte_at d p) i ltac:(lia) (byte_at_range d p) Hret Hmod)
      as (Hval & Hrange & Hmod').
    rewrite Hval, IH by lia.
    f_equal; [lia|]. f_equal. lia.
Qed.

(** With [n] bytes left, [read_unsigned] returns their big-endian value and
    leaves the stream good, [n] bytes further. *)
Lemma read_unsigned_ok (n : Z) (d : list byte) (p : Z) :
  0 <= n <= 4 -> 0 <= p -> p + n <= Z.of_nat (length d) ->
  read_unsigned n (mk_istream d p false false)
  = (be_value d p (Z.to_nat n), mk_istream d (p + n) false false).
Proof.
  intros Hn Hp Hlen. unfold read_unsigned.
  rewrite read_unsigned_loop_ok by (rewrite ?Z.mod_0_l; try lia;
                                    apply Z.pow_nonzero; lia).
  rewrite Z2Nat.id by lia. reflexivity.
Qed.

Lemma be_value_range (d : list byte) (p : Z) (k : nat) :
  0 <= be_value d p k < 2 ^ (8 * Z.of_nat k).
Proof.
  revert p. induction k as [|i IH]; intros p; cbn [be_value].
  - cbn. lia.
  - pose proof (byte_at_range d p) as Hb. pose proof (IH (p + 1)) as Hi.
    replace (8 * Z.of_nat (S i)) with (8 + 8 * Z.of_nat i) by lia.
    rewrite Z.pow_add_r by lia. change (2 ^ 8) with 256.
    nia.
Qed.

Lemma be16_range (d : list byte) (p : Z) : 0 <= be16 d p < 2 ^ 16.
Proof. exact (be_value_range d p 2). Qed.

Lemma be32_range (d : list byte) (p : Z) : 0 <= be32 d p < 2 ^ 32.
Proof. exact (be_value_range d p 4). Qed.

Lemma read_words_loop_ok (k i : nat) (v : list Z) (d : list byte) (p : Z) :
  length v = (i + k)%nat -> 0 <= p ->
  p + 4 * Z.of_nat k <= Z.of_nat (length d) ->
  read_words_loop k i v (mk_istream d p false false)
  = (take i v ++ words_at d p k,
     mk_istream d (p + 4 * Z.of_nat k) false false).
Proof.
  revert i v p. induction k as [|k IH]; intros i v p Hv Hp Hlen.
  - cbn [read_words_loop words_at]. rewrite app_nil_r, take_ge by lia.
    f_equal. f_equal. lia.
  - cbn [read_words_loop words_at].
    rewrite (read_unsigned_ok 4) by lia.
    change (be_value d p (Z.to_nat 4)) with (be32 d p).
    rewrite IH by (rewrite ?length_insert; lia).
    rewrite (take_S_r _ _ (be32 d p))
      by (apply list_lookup_insert_eq; lia).
    rewrite take_insert_ge by lia.
    rewrite <- app_assoc. cbn [app].
    f_equal. f_equal. lia.
Qed.

(** With [n] whole words left, [read_words] returns them in order. *)
Lemma read_words_ok (v : list Z) (n : Z) (d : list byte) (p : Z) :
  0 <= n < 2 ^ 32 -> 0 <= p -> p + 4 * n <= Z.of_nat (length d) ->
  read_words v n (mk_istream d p false false)
  = (words_at d p (Z.to_nat n), mk_istream d (p + 4 * n) false false).
Proof.
  intros Hn Hp Hlen. unfold read_words. rewrite unsigned_small by exact Hn.
  rewrite read_words_loop_ok
    by (rewrite ?vec_resize_length, ?Z2Nat.id; lia).
  cbn [take]. rewrite Z2Nat.id by lia. reflexivity.
Qed.

(** *** The preamble and the seek to the tables *)

Lemma UInt16_small (x : Z) : 0 <= x < 2 ^ 16 -> UInt16 x = x.
Proof. intros H. unfold UInt16. apply Z.mod_small. exact H. Qed.

Lemma UInt32_small (x : Z) : 0 <= x < 2 ^ 32 -> UInt32 x = x.
Proof. intros H. unfold UInt32. apply Z.mod_small. exact H. Qed.

Lemma read16_ok (d : list byte) (p : Z) :
  0 <= p -> p + 2 <= Z.of_nat (length d) ->
  read_unsigned 2 (mk_istream d p false false)
  = (be16 d p, mk_istream d (p + 2) false false).
Proof. intros Hp Hl. rewrite read_unsigned_ok by lia. reflexivity. Qed.

Lemma read32_ok (d : list byte) (p : Z) :
  0 <= p -> p + 4 <= Z.of_nat (length d) ->
  read_unsigned 4 (mk_istream d p false false)
  = (be32 d p, mk_istream d (p + 4) false false).
Proof. intros Hp Hl. rewrite read_unsigned_ok by lia. reflexivity. Qed.

Section CompletePreamble.

(** A stream that did not fail and holds the 24 bytes of the preamble and
    the first two words of the header. *)
Variable s : istream.
Hypothesis Hunfailed : failbit s = false.
Hypothesis Hlength : 32 <= Z.of_nat (length (sbuf s)).

(** The preamble is read without reaching the end of the input: the
    values are those at the absolute offsets of the format and the stream
    is left good at offset 32. *)
Lemma read_preamble_ok :
  read_preamble s
  = (preamble_at (sbuf s), mk_istream (sbuf s) 32 false false).
Proof.
  unfold read_preamble, seekg_beg.
  rewrite seek_to_unfailed by (assumption || lia).
  repeat (rewrite read16_ok by lia; cbv beta iota zeta).
  unfold seekg_cur. cbn [spos].
  rewrite seek_to_unfailed by (reflexivity || lia). cbn [sbuf].
  repeat (rewrite read32_ok by lia; cbv beta iota zeta).
  unfold preamble_at.
  rewrite !UInt16_small by apply be16_range.
  rewrite UInt32_small by apply be32_range.
  repeat f_equal.
Qed.

(** The seek to the char info table then moves the stream. *)
Lemma table_stream_ok :
  table_stream s
  = mk_istream (sbuf s) (24 + p_lh (preamble_at (sbuf s)) * 4) false false.
Proof.
  unfold table_stream. rewrite read_preamble_ok.
  cbn [fst snd]. unfold seekg_beg.
  pose proof (be16_range (sbuf s) 2).
  rewrite seek_to_unfailed by (reflexivity || (cbn [p_lh preamble_at]; lia)).
  reflexivity.
Qed.

End CompletePreamble.

(** The seven counts of the preamble are the 16-bit values at the offsets
    2 to 14 of the file, when the stream is good and holds these 16 bytes,
    whatever follows them. *)
Lemma read_preamble_counts (s : istream) :
  good s = true -> 16 <= Z.of_nat (length (sbuf s)) ->
  let p := fst (read_preamble s) in
  let d := sbuf s in
  p_lh p = be16 d 2 /\ p_firstChar p = be16 d 4 /\ p_lastChar p = be16 d 6
  /\ p_nw p = be16 d 8 /\ p_nh p = be16 d 10 /\ p_nd p = be16 d 12
  /\ p_ni p = be16 d 14.
Proof.
  intros Hgood Hlen. cbv zeta.
  pose proof (good_unfailed s Hgood) as Hf.
  unfold read_preamble, seekg_beg.
  rewrite seek_to_unfailed by (assumption || lia).
  repeat (rewrite read16_ok by lia; cbv beta iota zeta).
  generalize (seekg_cur 8 (mk_istream (sbuf s) (2 + 2 + 2 + 2 + 2 + 2 + 2 + 2)
                             false false)).
  intros s0. destruct_read_unsigned.
  cbn [fst p_lh p_firstChar p_lastChar p_nw p_nh p_nd p_ni].
  rewrite !UInt16_small by apply be16_range.
  repeat split.
Qed.

(** C2, amended: a stream in good state that holds the 16 bytes of the
    counts and whose character range is not inverted ([firstChar <=
    lastChar + 1]) is loaded with the result [true], whether it holds the
    declared tables or ends before one of them is read in full: no failure
    is reported, and each of the five tables of the font has the number of
    words that the bytes of the preamble declare. *)
Theorem load_returns_true (t : TFM) (s : istream) :
  good s = true ->
  16 <= Z.of_nat (length (sbuf s)) ->
  be16 (sbuf s) 4 <= be16 (sbuf s) 6 + 1 ->
  let d := sbuf s in
  let r := readFromStream t s in
  let f := snd (fst r) in
  fst (fst r) = true
  /\ ~ reports_failure r
  /\ vec_size (_charInfoTable f) = be16 d 6 - be16 d 4 + 1
  /\ vec_size (_widthTable f) = be16 d 8
  /\ vec_size (_heightTable f) = be16 d 10
  /\ vec_size (_depthTable f) = be16 d 12
  /\ vec_size (_italicTable f) = be16 d 14.
Proof.
  intros Hgood Hlen Hrange. cbv zeta. unfold reports_failure.
  rewrite readFromStream_split. cbn [fst snd].
  destruct (read_tables_sizes t (fst (read_preamble s)) (table_stream s))
    as (H1 & H2 & H3 & H4 & H5).
  destruct (read_preamble_counts s Hgood Hlen)
    as (_ & Cf & Cl & Cw & Ch & Cd & Ci).
  rewrite Cf, Cl in H1. rewrite Cw in H2. rewrite Ch in H3.
  rewrite Cd in H4. rewrite Ci in H5.
  pose proof (be16_range (sbuf s) 4). pose proof (be16_range (sbuf s) 6).
  pose proof (be16_range (sbuf s) 8). pose proof (be16_range (sbuf s) 10).
  pose proof (be16_range (sbuf s) 12). pose proof (be16_range (sbuf s) 14).
  rewrite unsigned_small in H1, H2, H3, H4, H5 by lia.
  split; [reflexivity|]. split; [discriminate|].
  repeat split; assumption.
Qed.

Lemma load_returns_true_witness :
  let d := sbuf truncated_stream in
  let r := readFromStream TFM_default truncated_stream in
  good truncated_stream = true
  /\ 16 <= Z.of_nat (length d)
  /\ be16 d 4 <= be16 d 6 + 1
  /\ Z.of_nat (length d)
     < 24 + 4 * be16 d 2 + 4 * (be16 d 6 - be16 d 4 + 1) + 4 * be16 d 8
  /\ fst (fst r) = true
  /\ ~ reports_failure r
  /\ vec_size (_widthTable (snd (fst r))) = 2.
Proof.
  cbv zeta.
  assert (Hg : good truncated_stream = true) by reflexivity.
  assert (Hl : 16 <= Z.of_nat (length (sbuf truncated_stream)))
    by (vm_compute; discriminate).
  assert (Hr : be16 (sbuf truncated_stream) 4 <= be16 (sbuf truncated_stream) 6 + 1)
    by (vm_compute; discriminate).
  split; [exact Hg|]. split; [exact Hl|]. split; [exact Hr|].
  split; [vm_compute; reflexivity|].
  destruct (load_returns_true TFM_default truncated_stream Hg Hl Hr)
    as (Ht & Hn & _ & Hw & _).
  split; [exact Ht|]. split; [exact Hn|]. exact Hw.
Defined.

(** C8: [short_stream] has 30 bytes and [lh = 0], so that the char info
    table is declared at offset [24 + lh*4 = 24], inside the data.  The
    read of the design size reaches the end of the input, the stream
    fails, and the seek to offset 24 does not move it: the tables are read
    at offset 30, and the char info word is not the word [0x01000000] at
    offset 24. *)
Theorem short_stream_not_repositioned :
  p_lh (preamble_at (sbuf short_stream)) = 0
  /\ be32 (sbuf short_stream) 24 = 0x01000000
  /\ failbit (snd (read_preamble short_stream)) = true
  /\ spos (table_stream short_stream) = 30
  /\ _charInfoTable (TFM_of_stream short_stream) <> [0x01000000]
  /\ ~ loads_tables_from_offset TFM_default short_stream.
Proof.
  unfold loads_tables_from_offset. vm_compute.
  repeat split; try discriminate; reflexivity.
Qed.

Lemma read_tables_complete (t : TFM) (d : list byte) :
  let p := preamble_at d in
  24 + p_lh p * 4
  + 4 * (unsigned (p_lastChar p - p_firstChar p + 1)
         + p_nw p + p_nh p + p_nd p + p_ni p) <= Z.of_nat (length d) ->
  fst (read_tables t p (mk_istream d (24 + p_lh p * 4) false false))
  = font_at_offsets d.
Proof.
  cbv zeta. intros Hlen. unfold read_tables, font_at_offsets.
  set (p := preamble_at d) in *.
  pose proof (unsigned_nonneg (p_lastChar p - p_firstChar p + 1)) as Hc.
  assert (Hlh : 0 <= p_lh p < 2 ^ 16) by apply be16_range.
  assert (Hnw : 0 <= p_nw p < 2 ^ 16) by apply be16_range.
  assert (Hnh : 0 <= p_nh p < 2 ^ 16) by apply be16_range.
  assert (Hnd : 0 <= p_nd p < 2 ^ 16) by apply be16_range.
  assert (Hni : 0 <= p_ni p < 2 ^ 16) by apply be16_range.
  unfold read_words at 1.
  rewrite read_words_loop_ok
    by (rewrite ?vec_resize_length, ?Z2Nat.id; lia).
  cbn [take app]. rewrite Z2Nat.id by lia.
  rewrite !read_words_ok by lia.
  reflexivity.
Qed.

(** Where the stream has not failed before the seek, the seek does move it:
    for a stream in good state that holds at least 32 bytes, with the char
    info table declared inside the data and a range that is not inverted,
    the load returns what the five table reads (char info, width, height,
    depth, italic, with the declared counts) return on the stream positioned
    at offset [24 + lh*4]; when the file holds all the declared tables,
    they are the runs of words that follow each other from that offset
    on. *)
Lemma tables_read_when_repositioned (t : TFM) (s : istream) :
  good s = true -> 32 <= Z.of_nat (length (sbuf s)) ->
  24 + be16 (sbuf s) 2 * 4 <= Z.of_nat (length (sbuf s)) ->
  be16 (sbuf s) 4 <= be16 (sbuf s) 6 + 1 ->
  loads_tables_from_offset t s
  /\ (ends_early s = false ->
      snd (fst (readFromStream t s)) = font_at_offsets (sbuf s)).
Proof.
  intros Hgood Hlen _ _. pose proof (good_unfailed s Hgood) as Hf.
  assert (Hload : loads_tables_from_offset t s).
  { unfold loads_tables_from_offset. cbv zeta.
    rewrite readFromStream_split, table_stream_ok, read_preamble_ok by assumption.
    reflexivity. }
  split; [exact Hload|].
  intros Hend. unfold loads_tables_from_offset in Hload. cbv zeta in Hload.
  rewrite Hload. cbn [fst snd].
  apply read_tables_complete. cbv zeta.
  unfold ends_early, declared_end in Hend.
  rewrite read_preamble_ok in Hend by assumption. cbn [fst] in Hend.
  apply Z.ltb_ge in Hend. exact Hend.
Qed.

(** ** Exactness of the fixed-point conversion *)

Lemma digits2_pos_size (p : positive) : digits2_pos p = Pos.size p.
Proof. induction p as [p IH|p IH|]; cbn; try rewrite IH; reflexivity. Qed.

Lemma digits2_pos_log2 (p : positive) :
  Zpos (digits2_pos p) = Z.log2 (Zpos p) + 1.
Proof.
  rewrite digits2_pos_size.
  destruct p as [p|p|]; cbn [Z.log2 Pos.size]; rewrite ?Pos2Z.inj_succ; lia.
Qed.

Lemma iter_xO_pow2 (m n : positive) :
  Zpos (Pos.iter xO m n) = Zpos m * 2 ^ Zpos n.
Proof.
  induction n as [|n IH] using Pos.peano_ind.
  - cbn [Pos.iter]. lia.
  - rewrite Pos.iter_succ, Pos2Z.inj_xO, IH, Pos2Z.inj_succ, Z.pow_succ_r by lia.
    lia.
Qed.

(** Shifting right by [n] a mantissa that ends in [n] zero bits loses
    nothing. *)
Lemma iter_shr_exact (n m : positive) :
  SpecFloat.iter_pos shr_1 n (Build_shr_record (Zpos (Pos.iter xO m n)) false false)
  = Build_shr_record (Zpos m) false false.
Proof.
  revert m. induction n as [n IH|n IH|]; intros m; cbn [SpecFloat.iter_pos Pos.iter].
  - cbn [shr_1 orb]. rewrite !IH. reflexivity.
  - rewrite !IH. reflexivity.
  - reflexivity.
Qed.

Lemma log2_shift (a n : Z) : 0 < a -> 0 <= n -> Z.log2 (a * 2 ^ n) = Z.log2 a + n.
Proof. intros. rewrite Z.log2_mul_pow2 by lia. lia. Qed.

(** A mantissa of exactly 53 bits with an exponent in range is kept. *)
Lemma binary_round_aux_kept (sx : bool) (m : positive) (e : Z) :
  Z.log2 (Zpos m) = 52 -> -1074 <= e <= 971 ->
  binary_round_aux dprec demax sx (Zpos m) e loc_Exact = S754_finite sx m e.
Proof.
  intros Hd He. unfold binary_round_aux, shr_fexp.
  cbn [Zdigits2 shr_record_of_loc]. rewrite digits2_pos_log2, Hd.
  assert (H0 : fexp dprec demax (52 + 1 + e) - e = 0)
    by (unfold fexp, emin, dprec, demax; lia).
  rewrite H0. cbn [shr shr_m loc_of_shr_record round_nearest_even Zdigits2 shr_record_of_loc].
  rewrite digits2_pos_log2, Hd, H0. cbn [shr shr_m].
  assert (Hle : (e <=? demax - dprec) = true)
    by (apply Z.leb_le; unfold dprec, demax; lia).
  rewrite Hle. reflexivity.
Qed.

(** A mantissa of [53 + n] bits, the low [n] of them zero, is shifted. *)
Lemma binary_round_aux_shift (sx : bool) (m n : positive) (e : Z) :
  Z.log2 (Zpos m) = 52 -> -1074 <= e + Zpos n <= 971 ->
  binary_round_aux dprec demax sx (Zpos (Pos.iter xO m n)) e loc_Exact
  = S754_finite sx m (e + Zpos n).
Proof.
  intros Hd He. unfold binary_round_aux, shr_fexp.
  cbn [Zdigits2 shr_record_of_loc].
  assert (Hdig : Zpos (digits2_pos (Pos.iter xO m n)) = 53 + Zpos n).
  { rewrite digits2_pos_log2, iter_xO_pow2, log2_shift by lia. lia. }
  rewrite Hdig.
  assert (Hn : fexp dprec demax (53 + Zpos n + e) - e = Zpos n)
    by (unfold fexp, emin, dprec, demax; lia).
  rewrite Hn. cbn [shr]. rewrite iter_shr_exact.
  cbn [shr_m loc_of_shr_record round_nearest_even Zdigits2 shr_record_of_loc].
  rewrite digits2_pos_log2, Hd.
  assert (H0 : fexp dprec demax (52 + 1 + (e + Zpos n)) - (e + Zpos n) = 0)
    by (unfold fexp, emin, dprec, demax; lia).
  rewrite H0. cbn [shr shr_m].
  assert (Hle : (e + Zpos n <=? demax - dprec) = true)
    by (apply Z.leb_le; unfold dprec, demax; lia).
  rewrite Hle. reflexivity.
Qed.
Lemma log2_bound (n : Z) : 0 < n < 2 ^ 53 -> 0 <= Z.log2 n <= 52.
Proof.
  intros H. split; [apply Z.log2_nonneg|].
  assert (Z.log2 n < 53) by (apply Z.log2_lt_pow2; lia). lia.
Qed.

Lemma norm_mantissa_pos (n : Z) :
  0 < Z.abs n < 2 ^ 53 ->
  Zpos (norm_mantissa n) = Z.abs n * 2 ^ (52 - Z.log2 (Z.abs n))
  /\ Z.log2 (Zpos (norm_mantissa n)) = 52.
Proof.
  intros H. pose proof (log2_bound _ H) as HL.
  assert (Hp : 0 < 2 ^ (52 - Z.log2 (Z.abs n))) by (apply Z.pow_pos_nonneg; lia).
  assert (Hm : Zpos (norm_mantissa n) = Z.abs n * 2 ^ (52 - Z.log2 (Z.abs n))).
  { unfold norm_mantissa. rewrite Z2Pos.id by nia. reflexivity. }
  split; [exact Hm|].
  rewrite Hm, log2_shift by lia. lia.
Qed.

Lemma double_of_pos (sx : bool) (p : positive) :
  Zpos p < 2 ^ 53 ->
  binary_round dprec demax sx p 0
  = S754_finite sx (norm_mantissa (Zpos p)) (Z.log2 (Zpos p) - 52).
Proof.
  intros Hp.
  assert (Habs : 0 < Z.abs (Zpos p) < 2 ^ 53)
    by (change (Z.abs (Zpos p)) with (Zpos p); lia).
  destruct (norm_mantissa_pos (Zpos p) Habs) as [Hm Hd].
  change (Z.abs (Zpos p)) with (Zpos p) in Hm.
  pose proof (log2_bound (Zpos p) ltac:(lia)) as HL.
  unfold binary_round, shl_align.
  rewrite digits2_pos_log2.
  assert (Hf : fexp dprec demax (Z.log2 (Zpos p) + 1 + 0) - 0 = Z.log2 (Zpos p) - 52)
    by (unfold fexp, emin, dprec, demax; lia).
  assert (Hf' : fexp dprec demax (Z.log2 (Zpos p) + 1 + 0) = Z.log2 (Zpos p) - 52)
    by lia.
  rewrite Hf, Hf'.
  destruct (Z.log2 (Zpos p) - 52) as [|q|q] eqn:E; [| lia |].
  - assert (Hmp : norm_mantissa (Zpos p) = p).
    { apply Pos2Z.inj. rewrite Hm. replace (52 - Z.log2 (Zpos p)) with 0 by lia. rewrite Z.pow_0_r. lia. }
    rewrite Hmp in *. apply binary_round_aux_kept; [exact Hd|lia].
  - assert (Hmp : norm_mantissa (Zpos p) = Pos.iter xO p q).
    { apply Pos2Z.inj. rewrite Hm, iter_xO_pow2.
      replace (52 - Z.log2 (Zpos p)) with (Zpos q) by lia. reflexivity. }
    rewrite <- Hmp. apply binary_round_aux_kept; [exact Hd|lia].
Qed.

Lemma double_of_int_dyadic (n : Z) :
  Z.abs n < 2 ^ 53 -> double_of_int n = dyadic n 0.
Proof.
  intros Hn. unfold double_of_int, dyadic, binary_normalize.
  destruct n as [|p|p]; cbn [Z.eqb Z.ltb Z.compare].
  - reflexivity.
  - change (Z.abs (Zpos p)) with (Zpos p) in *.
    rewrite double_of_pos by lia. f_equal. lia.
  - unfold norm_mantissa. change (Z.abs (Zneg p)) with (Zpos p) in *.
    rewrite double_of_pos by lia. f_equal. lia.
Qed.

Lemma div_eucl_exact (a b : Z) : 0 < b -> Z.div_eucl (a * b) b = (a, 0).
Proof.
  intros Hb.
  pose proof (Z.div_mul a b ltac:(lia)) as Hq.
  pose proof (Z.mod_mul a b ltac:(lia)) as Hr.
  unfold Z.div, Z.modulo in Hq, Hr.
  destruct (Z.div_eucl (a * b) b) as [q r]. cbn in Hq, Hr. subst. reflexivity.
Qed.

(** Dividing a normal double by [2^20] lowers its exponent by 20. *)
Lemma ddiv_pow20 (s : bool) (m : positive) (e : Z) :
  Z.log2 (Zpos m) = 52 -> -1053 <= e <= 991 ->
  ddiv (S754_finite s m e) (double_of_int (Z.shiftl 1 20))
  = S754_finite s m (e - 20).
Proof.
  intros Hd He.
  change (double_of_int (Z.shiftl 1 20))
    with (S754_finite false 4503599627370496 (-32)).
  unfold ddiv, SFdiv, SFdiv_core_binary.
  cbn [Zdigits2]. rewrite digits2_pos_log2, Hd.
  change (Zpos (digits2_pos 4503599627370496)) with 53.
  assert (He' : Z.min (fexp dprec demax (52 + 1 + e - (53 + -32))) (e - -32) = e - 21)
    by (unfold fexp, emin, dprec, demax; lia).
  rewrite He'.
  replace (e - -32 - (e - 21)) with 53 by lia.
  rewrite Z.shiftl_mul_pow2 by lia.
  replace (Zpos m * 2 ^ 53) with (Zpos m~0 * 4503599627370496) by lia.
  rewrite div_eucl_exact by lia.
  change (new_location 4503599627370496 0) with loc_Exact.
  rewrite xorb_false_r.
  change (m~0)%positive with (Pos.iter xO m 1).
  rewrite binary_round_aux_shift by (assumption || lia).
  f_equal. lia.
Qed.

Lemma fix2double_dyadic (fx : Z) :
  int_range fx -> fix2double fx = dyadic fx 20.
Proof.
  unfold int_range. intros Hr. unfold fix2double.
  rewrite double_of_int_dyadic by lia.
  unfold dyadic. destruct (fx =? 0) eqn:E; [reflexivity|].
  apply Z.eqb_neq in E.
  assert (Habs : 0 < Z.abs fx < 2 ^ 53) by lia.
  destruct (norm_mantissa_pos fx Habs) as [Hm Hd].
  pose proof (log2_bound _ Habs).
  rewrite ddiv_pow20 by (assumption || lia).
  f_equal. lia.
Qed.

Lemma dyadic_value_dyadic (n k : Z) :
  Z.abs n < 2 ^ 53 -> 0 <= k -> dyadic_value (dyadic n k) n k.
Proof.
  intros Hn Hk. unfold dyadic.
  destruct (n =? 0) eqn:E; [apply Z.eqb_eq in E; exact E|].
  apply Z.eqb_neq in E. cbn [dyadic_value].
  assert (Habs : 0 < Z.abs n < 2 ^ 53) by lia.
  destruct (norm_mantissa_pos n Habs) as [Hm Hd].
  pose proof (log2_bound _ Habs) as HL.
  split; [lia|].
  rewrite Hm.
  replace (- (Z.log2 (Z.abs n) - 52 - k)) with (52 - Z.log2 (Z.abs n) + k) by lia.
  rewrite Z.pow_add_r by lia.
  destruct (n <? 0) eqn:S; [apply Z.ltb_lt in S|apply Z.ltb_ge in S]; nia.
Qed.

(** [fix2double] converts without rounding: the double is [fx / 2^20]. *)
Lemma fix2double_value (fx : Z) :
  int_range fx -> dyadic_value (fix2double fx) fx 20.
Proof.
  intros H. rewrite fix2double_dyadic by exact H.
  unfold int_range in H. apply dyadic_value_dyadic; lia.
Qed.

Lemma sign_mul (a b : Z) :
  a <> 0 -> b <> 0 -> xorb (a <? 0) (b <? 0) = (a * b <? 0).
Proof.
  intros Ha Hb.
  destruct (a <? 0) eqn:Ea; destruct (b <? 0) eqn:Eb;
    destruct (a * b <? 0) eqn:Eab; try reflexivity;
    rewrite ?Z.ltb_lt, ?Z.ltb_ge in *; nia.
Qed.

(** The product of two normal doubles whose exact product has 53
    significant bits or fewer is that product. *)
Lemma dmul_dyadic (a b j k : Z) :
  a <> 0 -> b <> 0 -> Z.abs a < 2 ^ 53 -> Z.abs b < 2 ^ 53 ->
  Z.abs (a * b) < 2 ^ 53 -> 0 <= j + k <= 900 ->
  dmul (dyadic a j) (dyadic b k) = dyadic (a * b) (j + k).
Proof.
  intros Ha Hb Ra Rb Rab Hjk.
  assert (Hab : a * b <> 0) by nia.
  assert (Aa : 0 < Z.abs a < 2 ^ 53) by lia.
  assert (Ab : 0 < Z.abs b < 2 ^ 53) by lia.
  assert (Aab : 0 < Z.abs (a * b) < 2 ^ 53) by lia.
  destruct (norm_mantissa_pos a Aa) as [Hma _].
  destruct (norm_mantissa_pos b Ab) as [Hmb _].
  destruct (norm_mantissa_pos (a * b) Aab) as [Hmab Hdab].
  pose proof (log2_bound _ Aa) as La.
  pose proof (log2_bound _ Ab) as Lb.
  pose proof (log2_bound _ Aab) as Lab.
  assert (Hlog : Z.log2 (Z.abs a) + Z.log2 (Z.abs b) <= Z.log2 (Z.abs (a * b))).
  { rewrite Z.abs_mul. apply Z.log2_mul_below; lia. }
  unfold dyadic.
  destruct (a =? 0) eqn:Ea; [apply Z.eqb_eq in Ea; contradiction|].
  destruct (b =? 0) eqn:Eb; [apply Z.eqb_eq in Eb; contradiction|].
  destruct (a * b =? 0) eqn:Eab; [apply Z.eqb_eq in Eab; contradiction|].
  unfold dmul, SFmul.
  set (n := 52 + Z.log2 (Z.abs (a * b)) - Z.log2 (Z.abs a) - Z.log2 (Z.abs b)).
  assert (Hn : 0 < n) by (unfold n; lia).
  assert (Hprod : (norm_mantissa a * norm_mantissa b)%positive
                  = Pos.iter xO (norm_mantissa (a * b)) (Z.to_pos n)).
  { apply Pos2Z.inj. rewrite Pos2Z.inj_mul, iter_xO_pow2, Hma, Hmb, Hmab.
    rewrite Z2Pos.id by lia. rewrite Z.abs_mul.
    assert (Hpow : 2 ^ (52 - Z.log2 (Z.abs a)) * 2 ^ (52 - Z.log2 (Z.abs b))
                   = 2 ^ (52 - Z.log2 (Z.abs a * Z.abs b)) * 2 ^ n).
    { rewrite <- !Z.pow_add_r by (rewrite <- ?Z.abs_mul; lia).
      f_equal. unfold n. rewrite Z.abs_mul. lia. }
    transitivity (Z.abs a * Z.abs b
                  * (2 ^ (52 - Z.log2 (Z.abs a)) * 2 ^ (52 - Z.log2 (Z.abs b))));
      [ring|rewrite Hpow; ring]. }
  rewrite Hprod, binary_round_aux_shift
    by (try assumption; rewrite Z2Pos.id by lia; unfold n; lia).
  rewrite Z2Pos.id by lia.
  rewrite sign_mul by assumption.
  f_equal. unfold n. lia.
Qed.

(** For two fix words whose product has at most 53 significant bits the
    scaled product is computed without rounding. *)
Lemma scaled_product_exact (a b : Z) :
  int_range a -> int_range b -> Z.abs (a * b) < 2 ^ 53 ->
  dyadic_value (dmul (fix2double a) (fix2double b)) (a * b) 40.
Proof.
  intros Ha Hb Hab. unfold int_range in *.
  rewrite !fix2double_dyadic by (unfold int_range; lia).
  destruct (Z.eq_dec a 0) as [->|Na].
  - cbn [dyadic Z.eqb]. unfold dmul, SFmul, dyadic.
    destruct (b =? 0); cbn; reflexivity.
  - destruct (Z.eq_dec b 0) as [->|Nb].
    + unfold dyadic at 2. cbn [Z.eqb]. unfold dyadic.
      destruct (a =? 0); cbn; lia.
    + rewrite dmul_dyadic by lia.
      apply dyadic_value_dyadic; lia.
Qed.

(** Beyond 53 significant bits the product is rounded. *)
Lemma scaled_product_rounds :
  ~ dyadic_value (dmul (fix2double 0x7FFFFFFF) (fix2double 0x7FFFFFFF))
      (0x7FFFFFFF * 0x7FFFFFFF) 40.
Proof. vm_compute. intros [_ H]. discriminate H. Qed.

(** ** Metrics of a loaded font *)

Lemma TFM_of_stream_readFromStream (s : istream) :
  TFM_of_stream s = snd (fst (readFromStream TFM_default s)).
Proof.
  unfold TFM_of_stream.
  destruct (readFromStream TFM_default s) as [[ok t] s']. reflexivity.
Qed.

(** A loaded font holds one char info word for each character of its
    range, as long as the range is not inverted by more than one. *)
Lemma loaded_char_info_size (s : istream) :
  let t := TFM_of_stream s in
  TFM_wf t
  /\ vec_size (_charInfoTable t) = unsigned (_lastChar t - _firstChar t + 1).
Proof.
  cbv zeta. split.
  - rewrite TFM_of_stream_readFromStream. exact (loaded_wf TFM_default s).
  - rewrite TFM_of_stream_split.
    destruct (read_tables_sizes TFM_default (fst (read_preamble s)) (table_stream s))
      as (H1 & _).
    destruct (read_tables_scalars TFM_default (fst (read_preamble s)) (table_stream s))
      as (_ & Hf & Hl & _).
    rewrite Hf, Hl. exact H1.
Qed.

Lemma loaded_in_range (s : istream) (c : Z) :
  let t := TFM_of_stream s in
  _firstChar t <= c <= _lastChar t ->
  out_of_range t c = false
  /\ 0 <= c - _firstChar t < vec_size (_charInfoTable t).
Proof.
  cbv zeta. intros Hc.
  destruct (loaded_char_info_size s) as ([Hf Hl _] & Hsize).
  unfold UInt16_range in *.
  rewrite unsigned_small in Hsize by lia.
  split; [|lia].
  unfold out_of_range.
  assert (E1 : (c <? _firstChar (TFM_of_stream s)) = false) by (apply Z.ltb_ge; lia).
  assert (E2 : (c >? _lastChar (TFM_of_stream s)) = false)
    by (rewrite Z.gtb_ltb; apply Z.ltb_ge; lia).
  assert (E3 : (unsigned (c - _firstChar (TFM_of_stream s))
                >=? vec_size (_charInfoTable (TFM_of_stream s))) = false).
  { rewrite Z.geb_leb. apply Z.leb_gt. rewrite unsigned_small by lia. lia. }
  rewrite E1, E2, E3. reflexivity.
Qed.

(** C3: in a loaded font every character of the range has a char info
    word, and where the sub-field of that word is an index into the metric
    table, the query returns the product of the table entry and the design
    size, each converted by [fix2double]; [fix2double] of a fix word is the
    number [fix / 2^20] exactly, and the product is the number
    [entry * designSize / 2^40] exactly when it has at most 53 significant
    bits (a binary64 product is rounded beyond that).  For the stream of
    the end-to-end scenario, the widths of characters 0 and 1 are [10.0]
    and that of character 2 is [0.0]. *)
Theorem metric_is_scaled_product (s : istream) (m : metric) (c : Z) :
  let t := TFM_of_stream s in
  _firstChar t <= c <= _lastChar t ->
  (exists w,
     vec_at (_charInfoTable t) (c - _firstChar t) = Some w
     /\ forall e,
          vec_at (metrics_of m t) (index_of m w) = Some e ->
          query m t c
          = Value (dmul (fix2double (FixWord e)) (fix2double (_designSize t)))
          /\ dyadic_value (fix2double (FixWord e)) (FixWord e) 20
          /\ dyadic_value (fix2double (_designSize t)) (_designSize t) 20
          /\ (Z.abs (FixWord e * _designSize t) < 2 ^ 53 ->
              dyadic_value
                (dmul (fix2double (FixWord e)) (fix2double (_designSize t)))
                (FixWord e * _designSize t) 40))
  /\ fix2double 0x00100000 = double_of_int 1
  /\ fix2double 0x00A00000 = d10
  /\ double_of_int 10 = d10
  /\ getDesignSize (TFM_of_stream scenario_stream) = d10
  /\ getCharWidth (TFM_of_stream scenario_stream) 0 = Value d10
  /\ getCharWidth (TFM_of_stream scenario_stream) 1 = Value d10
  /\ getCharWidth (TFM_of_stream scenario_stream) 2 = Value dzero.
Proof.
  cbv zeta. intros Hc. split.
  - destruct (loaded_in_range s c Hc) as [Hout Hoff].
    destruct (loaded_char_info_size s) as ([_ _ Hds] & _).
    destruct (vec_at_Some _ _ Hoff) as [w Hw].
    exists w. split; [exact Hw|].
    intros e He. pose proof (FixWord_in_range e) as Hfe.
    split; [rewrite query_unfold, Hout, Hw, He; reflexivity|].
    split; [apply fix2double_value; exact Hfe|].
    split; [apply fix2double_value; exact Hds|].
    intros Hprod. apply scaled_product_exact; assumption.
  - vm_compute. repeat split.
Qed.

Lemma metric_is_scaled_product_witness :
  let t := TFM_of_stream scenario_stream in
  _firstChar t <= 1 <= _lastChar t
  /\ exists w,
       vec_at (_charInfoTable t) (1 - _firstChar t) = Some w
       /\ forall e,
            vec_at (metrics_of Height t) (index_of Height w) = Some e ->
            query Height t 1
            = Value (dmul (fix2double (FixWord e)) (fix2double (_designSize t)))
            /\ dyadic_value (fix2double (FixWord e)) (FixWord e) 20
            /\ dyadic_value (fix2double (_designSize t)) (_designSize t) 20
            /\ (Z.abs (FixWord e * _designSize t) < 2 ^ 53 ->
                dyadic_value
                  (dmul (fix2double (FixWord e)) (fix2double (_designSize t)))
                  (FixWord e * _designSize t) 40).
Proof.
  cbv zeta.
  assert (H : _firstChar (TFM_of_stream scenario_stream) <= 1
              <= _lastChar (TFM_of_stream scenario_stream))
    by (vm_compute; split; discriminate).
  split; [exact H|].
  exact (proj1 (metric_is_scaled_product scenario_stream Height 1 H)).
Defined.

(** The round trip of the specification: a synthetic one-character font
    with [firstChar = lastChar = 65], char info word 0, width [1.5] and
    design size [10.0] has [width(65) = 15.0]. *)
Lemma round_trip_65 :
  let t := TFM_of_stream
             (open_stream (tfm_bytes 65 65 1 1 1 1 0 0x00A00000
                             [0] [0x00180000] [0] [0] [0])) in
  getCharWidth t 65
  = Value (dmul (fix2double 0x00180000) (fix2double 0x00A00000))
  /\ getCharWidth t 65 = Value (double_of_int 15)
  /\ getCharWidth t 64 = Value dzero
  /\ getCharWidth t 66 = Value dzero.
Proof. vm_compute. repeat split. Qed.

(** * Further properties of the code *)

(** ** read_unsigned *)

(** X1: on a good stream that has [n] bytes left ([0 <= n <= 4]),
    [read_unsigned] returns their value with the first byte in the highest
    position, a value below [2^(8n)], and leaves the stream good, [n] bytes
    further. *)
Theorem read_unsigned_big_endian (n : Z) (d : list byte) (p : Z) :
  0 <= n <= 4 -> 0 <= p -> p + n <= Z.of_nat (length d) ->
  read_unsigned n (mk_istream d p false false)
  = (be_value d p (Z.to_nat n), mk_istream d (p + n) false false)
  /\ 0 <= be_value d p (Z.to_nat n) < 2 ^ (8 * n)
  /\ be_value d p 2 = byte_at d p * 256 + byte_at d (p + 1)
  /\ be_value d p 4
     = byte_at d p * 16777216 + byte_at d (p + 1) * 65536
       + byte_at d (p + 2) * 256 + byte_at d (p + 3).
Proof.
  intros Hn Hp Hlen.
  split; [apply read_unsigned_ok; assumption|].
  split.
  - pose proof (be_value_range d p (Z.to_nat n)) as H.
    rewrite Z2Nat.id in H by lia. exact H.
  - cbn [be_value Z.of_nat Pos.of_succ_nat Pos.succ].
    replace (p + 1 + 1) with (p + 2) by lia.
    replace (p + 2 + 1) with (p + 3) by lia.
    change (2 ^ (8 * 0)) with 1. change (2 ^ (8 * 1)) with 256.
    change (2 ^ (8 * 2)) with 65536. change (2 ^ (8 * 3)) with 16777216.
    split; lia.
Qed.

Lemma read_unsigned_big_endian_witness :
  let d := [x12; x34; x56; x78; x9a] in
  0 <= 4 <= 4 /\ 0 <= 1 /\ 1 + 4 <= Z.of_nat (length d)
  /\ read_unsigned 4 (mk_istream d 1 false false)
     = (0x3456789a, mk_istream d 5 false false).
Proof.
  cbv zeta.
  assert (H1 : 0 <= 4 <= 4) by lia.
  assert (H2 : 0 <= 1) by lia.
  assert (H3 : 1 + 4 <= Z.of_nat (length [x12; x34; x56; x78; x9a]))
    by (cbn; lia).
  split; [exact H1|]. split; [exact H2|]. split; [exact H3|].
  exact (proj1 (read_unsigned_big_endian 4 [x12; x34; x56; x78; x9a] 1 H1 H2 H3)).
Defined.

Lemma eof_word_bits (i n : Z) :
  0 <= i -> 8 * i <= n < 32 -> Z.testbit (eof_word i) n = true.
Proof.
  intros Hi Hn. unfold eof_word, UInt32.
  rewrite Z.testbit_mod_pow2 by lia.
  assert (E : (n <? 32) = true) by (apply Z.ltb_lt; lia). rewrite E. cbn [andb].
  rewrite Z.shiftl_spec by lia.
  change 0xFFFFFFFF with (Z.ones 32).
  apply Z.ones_spec_low. lia.
Qed.

Lemma eof_word_value (i : Z) :
  0 <= i <= 3 -> eof_word i = 2 ^ 32 - 2 ^ (8 * i).
Proof.
  intros Hi. unfold eof_word, UInt32.
  assert (E : i = 0 \/ i = 1 \/ i = 2 \/ i = 3) by lia.
  destruct E as [-> | [-> | [-> | ->]]]; reflexivity.
Qed.

(** One turn of the loop of [read_unsigned] at the end of the input: the
    [EOF] that [get] returns sets every bit from position [i] up, also the
    bits of the bytes read before. *)
Lemma or_eof (ret : Z) (i : nat) :
  0 <= ret < 2 ^ 32 -> ret mod 2 ^ (8 * Z.of_nat (S i)) = 0 ->
  UInt32 (Z.lor ret (UInt32 (Z.shiftl (UInt32 EOF) (8 * Z.of_nat i))))
  = eof_word (Z.of_nat i).
Proof.
  intros Hret Hmod.
  change (UInt32 EOF) with 0xFFFFFFFF.
  change (UInt32 (Z.shiftl 0xFFFFFFFF (8 * Z.of_nat i))) with (eof_word (Z.of_nat i)).
  assert (Hlor : Z.lor ret (eof_word (Z.of_nat i)) = eof_word (Z.of_nat i)).
  { apply Z.bits_inj'. intros n Hn. rewrite Z.lor_spec.
    destruct (Z.lt_ge_cases n (8 * Z.of_nat (S i))) as [Hlt|Hge].
    - rewrite <- (Z.mod_pow2_bits_low ret (8 * Z.of_nat (S i)) n) by lia.
      rewrite Hmod, Z.bits_0. reflexivity.
    - destruct (Z.lt_ge_cases n 32) as [H32|H32].
      + rewrite eof_word_bits by lia. apply orb_true_r.
      + rewrite <- (Z.mod_small ret (2 ^ 32)) by lia.
        rewrite Z.mod_pow2_bits_high by lia. reflexivity. }
  rewrite Hlor. unfold eof_word, UInt32. apply Z.mod_mod. lia.
Qed.

Lemma get_at_end (d : list byte) (p : Z) :
  Z.of_nat (length d) <= p ->
  get (mk_istream d p false false) = (EOF, mk_istream d p true true).
Proof.
  intros Hp. unfold get, good. cbn [eofbit failbit sbuf spos negb andb].
  destruct (0 <=? p); [|reflexivity].
  rewrite lookup_ge_None_2 by lia. reflexivity.
Qed.

Lemma read_unsigned_loop_eof (k : nat) (ret : Z) (s : istream) :
  eofbit s = true -> read_unsigned_loop k ret s = (ret, s).
Proof.
  intros H. destruct k; cbn [read_unsigned_loop]; [reflexivity|].
  unfold eof. rewrite H. reflexivity.
Qed.

Lemma read_unsigned_loop_short (k : nat) (d : list byte) (p ret : Z) (a : nat) :
  (a < k <= 4)%nat -> 0 <= p -> bytes_left d p a ->
  0 <= ret < 2 ^ 32 -> ret mod 2 ^ (8 * Z.of_nat k) = 0 ->
  read_unsigned_loop k ret (mk_istream d p false false)
  = (eof_word (Z.of_nat k - 1 - Z.of_nat a),
     mk_istream d (p + Z.of_nat a) true true).
Proof.
  revert p ret a. induction k as [|i IH]; intros p ret a Hk Hp Hleft Hret Hmod;
    [lia|].
  unfold bytes_left in Hleft.
  cbn [read_unsigned_loop eof eofbit].
  destruct a as [|a'].
  - rewrite get_at_end by lia.
    rewrite or_eof by assumption.
    rewrite read_unsigned_loop_eof by reflexivity.
    f_equal; [f_equal; lia|f_equal; lia].
  - rewrite get_ok by lia.
    destruct (or_byte ret (byte_at d p) i ltac:(lia) (byte_at_range d p) Hret Hmod)
      as (Hval & Hrange & Hmod').
    rewrite Hval, (IH (p + 1) _ a') by (unfold bytes_left; lia).
    f_equal; [f_equal; lia|f_equal; lia].
Qed.

Lemma read_unsigned_short (n : Z) (d : list byte) (p : Z) (a : nat) :
  1 <= n <= 4 -> 0 <= p -> bytes_left d p a -> Z.of_nat a < n ->
  read_unsigned n (mk_istream d p false false)
  = (eof_word (n - 1 - Z.of_nat a), mk_istream d (p + Z.of_nat a) true true).
Proof.
  intros Hn Hp Hleft Ha. unfold read_unsigned.
  rewrite (read_unsigned_loop_short _ d p 0 a)
    by (try assumption; rewrite ?Z.mod_0_l; try lia; apply Z.pow_nonzero; lia).
  rewrite Z2Nat.id by lia. reflexivity.
Qed.

(** X2: on a good stream with fewer than [n] bytes left, [a] of them,
    [read_unsigned] returns [0xFFFFFFFF << 8*(n-1-a)] cut to 32 bits,
    whatever the [a] bytes are: the [EOF] of the failed [get] covers them.
    The stream is left at its end with [eofbit] and [failbit] set. *)
Theorem read_unsigned_truncated (n : Z) (d : list byte) (p : Z) (a : nat) :
  1 <= n <= 4 -> 0 <= p -> bytes_left d p a -> Z.of_nat a < n ->
  read_unsigned n (mk_istream d p false false)
  = (eof_word (n - 1 - Z.of_nat a), mk_istream d (p + Z.of_nat a) true true)
  /\ eof_word (n - 1 - Z.of_nat a) = 2 ^ 32 - 2 ^ (8 * (n - 1 - Z.of_nat a)).
Proof.
  intros Hn Hp Hleft Ha.
  split; [apply read_unsigned_short; assumption|].
  apply eof_word_value. lia.
Qed.

Lemma read_unsigned_truncated_witness :
  let d := [x00; x12; x34; x56] in
  1 <= 4 <= 4 /\ 0 <= 1 /\ bytes_left d 1 3 /\ Z.of_nat 3 < 4
  /\ read_unsigned 4 (mk_istream d 1 false false)
     = (0xFFFFFFFF, mk_istream d 4 true true).
Proof.
  cbv zeta.
  assert (H1 : 1 <= 4 <= 4) by lia.
  assert (H2 : 0 <= 1) by lia.
  assert (H3 : bytes_left [x00; x12; x34; x56] 1 3) by reflexivity.
  assert (H4 : Z.of_nat 3 < 4) by reflexivity.
  split; [exact H1|]. split; [exact H2|]. split; [exact H3|]. split; [exact H4|].
  exact (proj1 (read_unsigned_truncated 4 [x00; x12; x34; x56] 1 3 H1 H2 H3 H4)).
Defined.

Lemma get_frame (s : istream) :
  sbuf (snd (get s)) = sbuf s
  /\ spos s <= spos (snd (get s)) <= spos s + 1
  /\ (eofbit s = true -> eofbit (snd (get s)) = true)
  /\ (failbit s = true -> failbit (snd (get s)) = true).
Proof.
  destruct s as [d p e f]. unfold get, good. cbn [sbuf spos eofbit failbit].
  destruct e, f; cbn [negb andb snd sbuf spos eofbit failbit];
    try (repeat split; (lia || reflexivity || discriminate)).
  destruct (if 0 <=? p then d !! Z.to_nat p else None);
    cbn [snd sbuf spos eofbit failbit]; repeat split; (lia || discriminate).
Qed.

Lemma read_unsigned_loop_frame (k : nat) (ret : Z) (s : istream) :
  0 <= ret < 2 ^ 32 ->
  sbuf (snd (read_unsigned_loop k ret s)) = sbuf s
  /\ spos s <= spos (snd (read_unsigned_loop k ret s)) <= spos s + Z.of_nat k
  /\ 0 <= fst (read_unsigned_loop k ret s) < 2 ^ 32
  /\ (eofbit s = true -> eofbit (snd (read_unsigned_loop k ret s)) = true)
  /\ (failbit s = true -> failbit (snd (read_unsigned_loop k ret s)) = true).
Proof.
  revert ret s. induction k as [|i IH]; intros ret s Hret; cbn [read_unsigned_loop].
  - cbn [fst snd]. repeat split; (lia || auto).
  - unfold eof. destruct (eofbit s) eqn:E.
    + cbn [fst snd]. repeat split; (lia || auto).
    + destruct (get_frame s) as (Gb & Gp & _ & Gf).
      destruct (get s) as [c s']. cbn [snd] in Gb, Gp, Gf.
      set (ret' := UInt32 (Z.lor ret (UInt32 (Z.shiftl (UInt32 c) (8 * Z.of_nat i))))).
      assert (Hret' : 0 <= ret' < 2 ^ 32) by apply UInt32_in_range.
      destruct (IH ret' s' Hret') as (Ib & Ip & Ir & Ie & If).
      repeat split; try lia; try congruence.
      intros Hf. apply If, Gf, Hf.
Qed.

(** X3: whatever state the stream is in, and for every [n] with
    [-2^31 < n <= 4] (so that [n - 1] is an [int] and no shift reaches 32
    bits), [read_unsigned(is, n)] leaves the bytes of the stream alone,
    moves the read position forward by at most [n], returns a 32-bit value
    and clears neither [eofbit] nor [failbit]; with [n <= 0] or with
    [eofbit] set it reads nothing and returns 0. *)
Theorem read_unsigned_frame (n : Z) (s : istream) :
  - 2 ^ 31 < n <= 4 ->
  sbuf (snd (read_unsigned n s)) = sbuf s
  /\ spos s <= spos (snd (read_unsigned n s)) <= spos s + Z.max 0 n
  /\ 0 <= fst (read_unsigned n s) < 2 ^ 32
  /\ (eofbit s = true -> eofbit (snd (read_unsigned n s)) = true)
  /\ (failbit s = true -> failbit (snd (read_unsigned n s)) = true)
  /\ (n <= 0 \/ eofbit s = true -> read_unsigned n s = (0, s)).
Proof.
  intros Hn. unfold read_unsigned.
  destruct (read_unsigned_loop_frame (Z.to_nat n) 0 s ltac:(lia))
    as (Hb & Hp & Hr & He & Hf).
  repeat split; try assumption; try lia.
  intros [H0|He']; [|apply read_unsigned_loop_eof; exact He'].
  replace (Z.to_nat n) with 0%nat by lia. reflexivity.
Qed.

Lemma read_unsigned_frame_witness :
  let s := mk_istream [x12; x34] 1 false false in
  - 2 ^ 31 < 2 <= 4
  /\ sbuf (snd (read_unsigned 2 s)) = sbuf s
  /\ spos s <= spos (snd (read_unsigned 2 s)) <= spos s + Z.max 0 2
  /\ 0 <= fst (read_unsigned 2 s) < 2 ^ 32.
Proof.
  cbv zeta.
  assert (H : - 2 ^ 31 < 2 <= 4) by lia.
  split; [exact H|].
  destruct (read_unsigned_frame 2 (mk_istream [x12; x34] 1 false false) H)
    as (Hb & Hp & Hr & _).
  split; [exact Hb|]. split; [exact Hp|]. exact Hr.
Defined.

(** X4: on a good stream, a read that leaves the stream good was complete:
    the [n] bytes were there, the value is their big-endian value and the
    position moved by [n].  A caller can tell a short read by the state of
    the stream, not by the value. *)
Theorem read_unsigned_good_after (n : Z) (d : list byte) (p : Z) :
  1 <= n <= 4 -> 0 <= p ->
  good (snd (read_unsigned n (mk_istream d p false false))) = true ->
  p + n <= Z.of_nat (length d)
  /\ read_unsigned n (mk_istream d p false false)
     = (be_value d p (Z.to_nat n), mk_istream d (p + n) false false).
Proof.
  intros Hn Hp Hgood.
  destruct (Z.le_gt_cases (p + n) (Z.of_nat (length d))) as [Hle|Hgt].
  - split; [exact Hle|]. apply read_unsigned_ok; lia.
  - exfalso.
    set (a := Z.to_nat (Z.max p (Z.of_nat (length d)) - p)).
    assert (Hleft : bytes_left d p a) by (unfold bytes_left, a; lia).
    assert (Ha : Z.of_nat a < n) by (unfold a; lia).
    rewrite (read_unsigned_short n d p a Hn Hp Hleft Ha) in Hgood.
    discriminate Hgood.
Qed.

Lemma read_unsigned_good_after_witness :
  let d := [x12; x34; x56] in
  1 <= 2 <= 4 /\ 0 <= 1
  /\ good (snd (read_unsigned 2 (mk_istream d 1 false false))) = true
  /\ 1 + 2 <= Z.of_nat (length d)
  /\ read_unsigned 2 (mk_istream d 1 false false)
     = (0x3456, mk_istream d 3 false false).
Proof.
  cbv zeta.
  assert (H1 : 1 <= 2 <= 4) by lia.
  assert (H2 : 0 <= 1) by lia.
  assert (H3 : good (snd (read_unsigned 2 (mk_istream [x12; x34; x56] 1 false false)))
               = true) by reflexivity.
  split; [exact H1|]. split; [exact H2|]. split; [exact H3|].
  exact (read_unsigned_good_after 2 [x12; x34; x56] 1 H1 H2 H3).
Defined.

(** ** read_words *)

Lemma words_at_length (d : list byte) (p : Z) (n : nat) :
  length (words_at d p n) = n.
Proof. revert p. induction n as [|n IH]; intros p; cbn; [|rewrite IH]; reflexivity. Qed.

Lemma words_at_lookup (d : list byte) (p : Z) (n i : nat) :
  (i < n)%nat -> words_at d p n !! i = Some (be32 d (p + 4 * Z.of_nat i)).
Proof.
  revert p i. induction n as [|n IH]; intros p i Hi; [lia|].
  destruct i as [|i]; cbn [words_at].
  - change (Z.of_nat 0) with 0. rewrite Z.mul_0_r, Z.add_0_r. reflexivity.
  - change ((be32 d p :: words_at d (p + 4) n) !! S i)
      with (words_at d (p + 4) n !! i).
    rewrite IH by lia. f_equal. f_equal. lia.
Qed.

Lemma take_insert_snoc (v : list Z) (i : nat) (w : Z) :
  (i < length v)%nat -> take (S i) (<[i := w]> v) = take i v ++ [w].
Proof.
  intros Hi. rewrite (take_S_r _ _ w) by (apply list_lookup_insert_eq; lia).
  rewrite take_insert_ge by lia. reflexivity.
Qed.

Lemma read_words_loop_at_eof (k i : nat) (v : list Z) (s : istream) :
  eofbit s = true -> length v = (i + k)%nat ->
  read_words_loop k i v s = (take i v ++ replicate k 0, s).
Proof.
  intros He. revert i v. induction k as [|k IH]; intros i v Hv;
    cbn [read_words_loop replicate].
  - rewrite app_nil_r, take_ge by lia. reflexivity.
  - rewrite read_unsigned_after_eof by exact He.
    rewrite IH by (rewrite length_insert; lia).
    rewrite take_insert_snoc by lia.
    rewrite <- app_assoc. reflexivity.
Qed.

Lemma read_words_loop_truncated (q k i : nat) (v : list Z) (d : list byte)
    (p : Z) (r : nat) :
  length v = (i + q + S k)%nat -> 0 <= p -> (r < 4)%nat ->
  bytes_left d p (4 * q + r) ->
  read_words_loop (q + S k) i v (mk_istream d p false false)
  = (take i v ++ words_at d p q ++ eof_word (3 - Z.of_nat r) :: replicate k 0,
     mk_istream d (p + Z.of_nat (4 * q + r)) true true).
Proof.
  revert i v p. induction q as [|q IH]; intros i v p Hv Hp Hr Hleft.
  - cbn [Nat.add read_words_loop words_at app].
    replace (4 * 0 + r)%nat with r in * by lia.
    rewrite (read_unsigned_short 4 d p r) by (assumption || lia).
    rewrite read_words_loop_at_eof by (reflexivity || (rewrite length_insert; lia)).
    rewrite take_insert_snoc by lia.
    rewrite <- app_assoc. reflexivity.
  - unfold bytes_left in Hleft.
    cbn [Nat.add read_words_loop words_at].
    rewrite read32_ok by lia.
    rewrite (IH (S i) _ (p + 4)) by (rewrite ?length_insert; unfold bytes_left; lia).
    rewrite take_insert_snoc by lia.
    rewrite <- !app_assoc. cbn [app].
    f_equal. f_equal. lia.
Qed.

(** X5: on a good stream with [4n] bytes left, [read_words] returns the [n]
    words in the order of the file, word [i] being the big-endian value of
    the four bytes at offset [p + 4i], and leaves the stream good behind
    the last of them. *)
Theorem read_words_complete (v : list Z) (n : Z) (d : list byte) (p : Z) :
  0 <= n < 2 ^ 32 -> 0 <= p -> p + 4 * n <= Z.of_nat (length d) ->
  read_words v n (mk_istream d p false false)
  = (words_at d p (Z.to_nat n), mk_istream d (p + 4 * n) false false)
  /\ forall i, 0 <= i < n ->
       vec_at (fst (read_words v n (mk_istream d p false false))) i
       = Some (be32 d (p + 4 * i)).
Proof.
  intros Hn Hp Hlen.
  pose proof (read_words_ok v n d p Hn Hp Hlen) as H.
  split; [exact H|].
  intros i Hi. rewrite H. cbn [fst]. unfold vec_at.
  destruct (i <? 0) eqn:E; [apply Z.ltb_lt in E; lia|].
  rewrite words_at_lookup by lia. rewrite Z2Nat.id by lia. reflexivity.
Qed.

Lemma read_words_complete_witness :
  let d := [x00; x00; x00; x01; x00; x00; x00; x02; xff] in
  0 <= 2 < 2 ^ 32 /\ 0 <= 0 /\ 0 + 4 * 2 <= Z.of_nat (length d)
  /\ read_words [7; 7; 7] 2 (mk_istream d 0 false false)
     = ([1; 2], mk_istream d 8 false false).
Proof.
  cbv zeta.
  assert (H1 : 0 <= 2 < 2 ^ 32) by lia.
  assert (H2 : 0 <= 0) by lia.
  assert (H3 : 0 + 4 * 2
               <= Z.of_nat (length [x00; x00; x00; x01; x00; x00; x00; x02; xff]))
    by (cbn; lia).
  split; [exact H1|]. split; [exact H2|]. split; [exact H3|].
  exact (proj1 (read_words_complete [7; 7; 7] 2
                  [x00; x00; x00; x01; x00; x00; x00; x02; xff] 0 H1 H2 H3)).
Defined.

(** X6: on a good stream that ends inside the table, after [q] whole words
    and [r] more bytes, [read_words] returns the [q] words, then one word
    that is [0xFFFFFFFF << 8*(3-r)] whatever the [r] bytes are, then zeros:
    the table has its [n] words all the same, and the stream is left at its
    end with [eofbit] and [failbit] set. *)
Theorem read_words_truncated (v : list Z) (n : Z) (d : list byte) (p : Z)
    (q r : nat) :
  0 <= n < 2 ^ 32 -> 0 <= p -> (r < 4)%nat -> bytes_left d p (4 * q + r) ->
  Z.of_nat q < n ->
  read_words v n (mk_istream d p false false)
  = (words_at d p q
       ++ eof_word (3 - Z.of_nat r) :: replicate (Z.to_nat n - q - 1) 0,
     mk_istream d (p + Z.of_nat (4 * q + r)) true true).
Proof.
  intros Hn Hp Hr Hleft Hq. unfold read_words.
  rewrite unsigned_small by exact Hn.
  remember (Z.to_nat n - q - 1)%nat as m eqn:Em.
  assert (E : Z.to_nat n = (q + S m)%nat) by lia.
  rewrite E.
  rewrite (read_words_loop_truncated q m 0 _ d p r)
    by (rewrite ?vec_resize_length; (assumption || lia)).
  reflexivity.
Qed.

Lemma read_words_truncated_witness :
  let d := [x00; x00; x00; x01; xab; xcd] in
  0 <= 3 < 2 ^ 32 /\ 0 <= 0 /\ (2 < 4)%nat /\ bytes_left d 0 (4 * 1 + 2)
  /\ Z.of_nat 1 < 3
  /\ read_words [] 3 (mk_istream d 0 false false)
     = ([1; 0xFFFFFF00; 0], mk_istream d 6 true true).
Proof.
  cbv zeta.
  assert (H1 : 0 <= 3 < 2 ^ 32) by lia.
  assert (H2 : 0 <= 0) by lia.
  assert (H3 : (2 < 4)%nat) by lia.
  assert (H4 : bytes_left [x00; x00; x00; x01; xab; xcd] 0 (4 * 1 + 2))
    by reflexivity.
  assert (H5 : Z.of_nat 1 < 3) by reflexivity.
  split; [exact H1|]. split; [exact H2|]. split; [exact H3|].
  split; [exact H4|]. split; [exact H5|].
  exact (read_words_truncated [] 3 [x00; x00; x00; x01; xab; xcd] 0 1 2
           H1 H2 H3 H4 H5).
Defined.

(** X7: once [eofbit] is set, [read_words] reads nothing: the table is [n]
    zero words (the count taken as [unsigned]) and the stream is as it
    was. *)
Theorem read_words_after_eof (v : list Z) (n : Z) (s : istream) :
  eofbit s = true ->
  read_words v n s = (replicate (Z.to_nat (unsigned n)) 0, s).
Proof.
  intros He. unfold read_words.
  rewrite read_words_loop_at_eof by (exact He || (rewrite vec_resize_length; lia)).
  reflexivity.
Qed.

Lemma read_words_after_eof_witness :
  let s := mk_istream [x01; x02; x03; x04] 0 true true in
  eofbit s = true /\ read_words [9] 2 s = ([0; 0], s).
Proof.
  cbv zeta.
  assert (H : eofbit (mk_istream [x01; x02; x03; x04] 0 true true) = true)
    by reflexivity.
  split; [exact H|].
  exact (read_words_after_eof [9] 2 (mk_istream [x01; x02; x03; x04] 0 true true) H).
Defined.

(** ** fix2double and getDesignSize *)

Lemma norm_mantissa_compare (a b : Z) :
  0 < Z.abs a < 2 ^ 53 -> 0 < Z.abs b < 2 ^ 53 ->
  Z.log2 (Z.abs a) = Z.log2 (Z.abs b) ->
  Pos.compare_cont Eq (norm_mantissa a) (norm_mantissa b)
  = (Z.abs a ?= Z.abs b).
Proof.
  intros Ha Hb Hlog.
  destruct (norm_mantissa_pos a Ha) as [Hma _].
  destruct (norm_mantissa_pos b Hb) as [Hmb _].
  pose proof (log2_bound _ Ha) as La.
  change (Pos.compare_cont Eq (norm_mantissa a) (norm_mantissa b))
    with (Zpos (norm_mantissa a) ?= Zpos (norm_mantissa b)).
  rewrite Hma, Hmb, <- Hlog.
  symmetry. apply Zmult_compare_compat_r.
  apply Z.lt_gt, Z.pow_pos_nonneg; lia.
Qed.

Lemma log2_lt_abs (a b : Z) :
  0 < Z.abs a -> 0 < Z.abs b ->
  Z.log2 (Z.abs a) < Z.log2 (Z.abs b) -> Z.abs a < Z.abs b.
Proof. intros Ha Hb H. apply Z.log2_lt_cancel. exact H. Qed.

Lemma dyadic_compare (a b k : Z) :
  Z.abs a < 2 ^ 53 -> Z.abs b < 2 ^ 53 ->
  SFcompare (dyadic a k) (dyadic b k) = Some (a ?= b).
Proof.
  intros Ra Rb. unfold dyadic.
  destruct (a =? 0) eqn:Ea; destruct (b =? 0) eqn:Eb;
    rewrite ?Z.eqb_eq, ?Z.eqb_neq in *; subst; cbn [SFcompare].
  - reflexivity.
  - f_equal. destruct (b <? 0) eqn:S; rewrite ?Z.ltb_lt, ?Z.ltb_ge in S;
      symmetry; [apply Z.compare_gt_iff|apply Z.compare_lt_iff]; lia.
  - f_equal. destruct (a <? 0) eqn:S; rewrite ?Z.ltb_lt, ?Z.ltb_ge in S;
      symmetry; [apply Z.compare_lt_iff|apply Z.compare_gt_iff]; lia.
  - assert (Ha : 0 < Z.abs a < 2 ^ 53) by lia.
    assert (Hb : 0 < Z.abs b < 2 ^ 53) by lia.
    f_equal.
    destruct (a <? 0) eqn:Sa; destruct (b <? 0) eqn:Sb;
      rewrite ?Z.ltb_lt, ?Z.ltb_ge in Sa, Sb.
    + destruct (Z.compare_spec (Z.log2 (Z.abs a) - 52 - k)
                  (Z.log2 (Z.abs b) - 52 - k)) as [He|He|He].
      * rewrite norm_mantissa_compare by (assumption || lia).
        rewrite <- Z.compare_antisym.
        replace (Z.abs a) with (- a) by lia. replace (Z.abs b) with (- b) by lia.
        apply Z.compare_opp.
      * pose proof (log2_lt_abs a b ltac:(lia) ltac:(lia) ltac:(lia)).
        symmetry. apply Z.compare_gt_iff. lia.
      * pose proof (log2_lt_abs b a ltac:(lia) ltac:(lia) ltac:(lia)).
        symmetry. apply Z.compare_lt_iff. lia.
    + symmetry. apply Z.compare_lt_iff. lia.
    + symmetry. apply Z.compare_gt_iff. lia.
    + destruct (Z.compare_spec (Z.log2 (Z.abs a) - 52 - k)
                  (Z.log2 (Z.abs b) - 52 - k)) as [He|He|He].
      * rewrite norm_mantissa_compare by (assumption || lia).
        f_equal; lia.
      * pose proof (log2_lt_abs a b ltac:(lia) ltac:(lia) ltac:(lia)).
        symmetry. apply Z.compare_lt_iff. lia.
      * pose proof (log2_lt_abs b a ltac:(lia) ltac:(lia) ltac:(lia)).
        symmetry. apply Z.compare_gt_iff. lia.
Qed.

(** X8: [fix2double] keeps the order of fix words: comparing the doubles
    of two fix words gives the comparison of the fix words, so two fix
    words have the same double only when they are equal, and the double of
    0 is [+0.0]. *)
Theorem fix2double_order (a b : Z) :
  int_range a -> int_range b ->
  SFcompare (fix2double a) (fix2double b) = Some (a ?= b)
  /\ (fix2double a = fix2double b -> a = b)
  /\ fix2double 0 = S754_zero false.
Proof.
  intros Ha Hb.
  assert (Hcmp : forall x y, int_range x -> int_range y ->
                   SFcompare (fix2double x) (fix2double y) = Some (x ?= y)).
  { intros x y Hx Hy. rewrite !fix2double_dyadic by assumption.
    unfold int_range in *. apply dyadic_compare; lia. }
  split; [apply Hcmp; assumption|].
  split; [|reflexivity].
  intros Heq. pose proof (Hcmp a b Ha Hb) as H1.
  rewrite Heq, (Hcmp b b Hb Hb), Z.compare_refl in H1.
  apply Z.compare_eq. congruence.
Qed.

Lemma fix2double_order_witness :
  int_range (-3) /\ int_range 0x00100000
  /\ SFcompare (fix2double (-3)) (fix2double 0x00100000) = Some Lt.
Proof.
  assert (H1 : int_range (-3)) by (unfold int_range; lia).
  assert (H2 : int_range 0x00100000) by (unfold int_range; lia).
  split; [exact H1|]. split; [exact H2|].
  exact (proj1 (fix2double_order (-3) 0x00100000 H1 H2)).
Defined.

Lemma loaded_scalars (t : TFM) (s : istream) :
  good s = true -> 32 <= Z.of_nat (length (sbuf s)) ->
  let f := snd (fst (readFromStream t s)) in
  _checksum f = be32 (sbuf s) 24
  /\ _firstChar f = be16 (sbuf s) 4
  /\ _lastChar f = be16 (sbuf s) 6
  /\ _designSize f = FixWord (be32 (sbuf s) 28).
Proof.
  intros Hgood Hlen. cbv zeta.
  rewrite readFromStream_split. cbn [fst snd].
  destruct (read_tables_scalars t (fst (read_preamble s)) (table_stream s))
    as (Hc & Hf & Hl & Hd).
  rewrite Hc, Hf, Hl, Hd.
  rewrite read_preamble_ok by (try apply good_unfailed; assumption).
  repeat split.
Qed.

(** X9: for a stream in good state of at least 32 bytes, whatever the
    header length and the tables are, the design size of the loaded font is
    the signed big-endian word at offset 28 divided by [2^20], without
    rounding; the checksum is the word at offset 24 and the character range
    the two 16-bit values at offsets 4 and 6. *)
Theorem design_size_at_offset_28 (t : TFM) (s : istream) :
  good s = true -> 32 <= Z.of_nat (length (sbuf s)) ->
  let f := snd (fst (readFromStream t s)) in
  getDesignSize f = fix2double (FixWord (be32 (sbuf s) 28))
  /\ dyadic_value (getDesignSize f) (FixWord (be32 (sbuf s) 28)) 20
  /\ _checksum f = be32 (sbuf s) 24
  /\ _firstChar f = be16 (sbuf s) 4
  /\ _lastChar f = be16 (sbuf s) 6.
Proof.
  intros Hgood Hlen. cbv zeta.
  destruct (loaded_scalars t s Hgood Hlen) as (Hc & Hf & Hl & Hd).
  unfold getDesignSize. rewrite Hd.
  split; [reflexivity|].
  split; [apply fix2double_value, FixWord_in_range|].
  repeat split; assumption.
Qed.

Lemma design_size_at_offset_28_witness :
  good truncated_stream = true
  /\ 32 <= Z.of_nat (length (sbuf truncated_stream))
  /\ getDesignSize (snd (fst (readFromStream TFM_default truncated_stream)))
     = fix2double (FixWord (be32 (sbuf truncated_stream) 28)).
Proof.
  assert (H1 : good truncated_stream = true) by reflexivity.
  assert (H2 : 32 <= Z.of_nat (length (sbuf truncated_stream)))
    by (vm_compute; discriminate).
  split; [exact H1|]. split; [exact H2|].
  exact (proj1 (design_size_at_offset_28 TFM_default truncated_stream H1 H2)).
Defined.

(** ** The default font and the definedness of the queries *)

(** X10: a font made by the default constructor answers [0.0] to every
    query for every character code, also for code 0, which lies in its
    range [0, 0]: the char info table is empty.  Its design size is
    [+0.0]. *)
Theorem default_font_zero (c : Z) :
  getCharWidth TFM_default c = Value dzero
  /\ getCharHeight TFM_default c = Value dzero
  /\ getCharDepth TFM_default c = Value dzero
  /\ getItalicCorr TFM_default c = Value dzero
  /\ getDesignSize TFM_default = dzero
  /\ _firstChar TFM_default <= 0 <= _lastChar TFM_default.
Proof.
  assert (Hout : out_of_range TFM_default c = true).
  { unfold out_of_range, TFM_default, vec_size.
    cbn [_firstChar _lastChar _charInfoTable length Z.of_nat].
    destruct (c <? 0) eqn:E1; [reflexivity|].
    destruct (c >? 0) eqn:E2; [reflexivity|].
    apply Z.ltb_ge in E1. rewrite Z.gtb_ltb in E2. apply Z.ltb_ge in E2.
    replace (c - 0) with 0 by lia. reflexivity. }
  split; [exact (out_of_range_zero Width _ c Hout)|].
  split; [exact (out_of_range_zero Height _ c Hout)|].
  split; [exact (out_of_range_zero Depth _ c Hout)|].
  split; [exact (out_of_range_zero Italic _ c Hout)|].
  split; [reflexivity|]. cbn. lia.
Qed.

Lemma index_of_range (m : metric) (w : Z) :
  0 <= index_of m w < 2 ^ field_width m.
Proof.
  rewrite index_of_bit_field. apply bit_field_range. destruct m; cbn; lia.
Qed.

(** X11: when a query is defined.  For a font whose members are in the
    ranges of their types, a query returns a value exactly when the
    character is outside the guard or the sub-field of its char info word
    is below the size of the metric table; otherwise it reads outside that
    table.  A width table of 256 words, height and depth tables of 16 and
    an italic table of 64 make every query defined. *)
Theorem query_defined (m : metric) (t : TFM) (c : Z) :
  TFM_wf t ->
  ((exists v, query m t c = Value v)
   <-> out_of_range t c = true
       \/ exists w, vec_at (_charInfoTable t) (c - _firstChar t) = Some w
                    /\ index_of m w < vec_size (metrics_of m t))
  /\ ((forall v, query m t c <> Value v) -> query m t c = OutOfBounds (table_of m))
  /\ (2 ^ field_width m <= vec_size (metrics_of m t) ->
      exists v, query m t c = Value v).
Proof.
  intros Hwf.
  assert (Hiff : (exists v, query m t c = Value v)
                 <-> out_of_range t c = true
                     \/ exists w, vec_at (_charInfoTable t) (c - _firstChar t) = Some w
                                  /\ index_of m w < vec_size (metrics_of m t)).
  { rewrite query_unfold. destruct (out_of_range t c) eqn:Hout.
    - split; [intros _; left; reflexivity|intros _; eexists; reflexivity].
    - destruct (in_range_offset t c Hwf Hout) as [_ Hoff].
      destruct (vec_at_Some _ _ Hoff) as [w Hw]. rewrite Hw.
      pose proof (index_of_range m w) as Hidx.
      destruct (Z.lt_ge_cases (index_of m w) (vec_size (metrics_of m t))) as [Hlt|Hge].
      + destruct (vec_at_Some (metrics_of m t) (index_of m w) ltac:(lia)) as [e He].
        rewrite He. split; [|intros _; eexists; reflexivity].
        intros _. right. exists w. split; [reflexivity|exact Hlt].
      + rewrite vec_at_None by exact Hge. split.
        * intros [v Hv]. discriminate Hv.
        * intros [Hf|[w' [Hw' Hlt]]]; [discriminate|].
          injection Hw' as <-. lia. }
  split; [exact Hiff|]. split.
  - intros Hno. rewrite query_unfold in *.
    destruct (out_of_range t c) eqn:Hout; [exfalso; eapply Hno; reflexivity|].
    destruct (in_range_offset t c Hwf Hout) as [_ Hoff].
    destruct (vec_at_Some _ _ Hoff) as [w Hw]. rewrite Hw in *.
    destruct (vec_at (metrics_of m t) (index_of m w));
      [exfalso; eapply Hno; reflexivity|reflexivity].
  - intros Hfull. apply Hiff.
    destruct (out_of_range t c) eqn:Hout; [left; reflexivity|right].
    destruct (in_range_offset t c Hwf Hout) as [_ Hoff].
    destruct (vec_at_Some _ _ Hoff) as [w Hw]. exists w.
    split; [exact Hw|]. pose proof (index_of_range m w). lia.
Qed.

Lemma query_defined_witness :
  let t := TFM_of_stream scenario_stream in
  TFM_wf t
  /\ ((exists v, query Width t 1 = Value v)
      <-> out_of_range t 1 = true
          \/ exists w, vec_at (_charInfoTable t) (1 - _firstChar t) = Some w
                       /\ index_of Width w < vec_size (metrics_of Width t)).
Proof.
  cbv zeta.
  assert (Hwf : TFM_wf (TFM_of_stream scenario_stream)).
  { split; unfold UInt16_range, int_range; vm_compute;
      (split; [discriminate|reflexivity]). }
  split; [exact Hwf|].
  exact (proj1 (query_defined Width (TFM_of_stream scenario_stream) 1 Hwf)).
Defined.

(** ** The load of a complete file *)

Lemma read_tables_full (t : TFM) (d : list byte) :
  tables_end d <= Z.of_nat (length d) ->
  read_tables t (preamble_at d)
    (mk_istream d (24 + p_lh (preamble_at d) * 4) false false)
  = (font_at_offsets d, mk_istream d (tables_end d) false false).
Proof.
  unfold tables_end. cbv zeta. intros Hlen. unfold read_tables, font_at_offsets.
  set (p := preamble_at d) in *.
  pose proof (unsigned_nonneg (p_lastChar p - p_firstChar p + 1)) as Hc.
  assert (Hlh : 0 <= p_lh p < 2 ^ 16) by apply be16_range.
  assert (Hnw : 0 <= p_nw p < 2 ^ 16) by apply be16_range.
  assert (Hnh : 0 <= p_nh p < 2 ^ 16) by apply be16_range.
  assert (Hnd : 0 <= p_nd p < 2 ^ 16) by apply be16_range.
  assert (Hni : 0 <= p_ni p < 2 ^ 16) by apply be16_range.
  unfold read_words at 1.
  rewrite read_words_loop_ok
    by (rewrite ?vec_resize_length, ?Z2Nat.id; lia).
  cbn [take app]. rewrite Z2Nat.id by lia.
  rewrite !read_words_ok by lia.
  f_equal. f_equal. lia.
Qed.

Lemma ends_early_tables_end (s : istream) :
  good s = true -> 32 <= Z.of_nat (length (sbuf s)) ->
  declared_end s = tables_end (sbuf s).
Proof.
  intros Hgood Hlen. unfold declared_end, tables_end.
  rewrite read_preamble_ok by (try apply good_unfailed; assumption).
  reflexivity.
Qed.

Lemma load_complete (t : TFM) (s : istream) :
  good s = true -> 32 <= Z.of_nat (length (sbuf s)) -> ends_early s = false ->
  readFromStream t s
  = (true, font_at_offsets (sbuf s),
     mk_istream (sbuf s) (tables_end (sbuf s)) false false).
Proof.
  intros Hgood Hlen Hend. pose proof (good_unfailed s Hgood) as Hf.
  unfold ends_early in Hend. rewrite ends_early_tables_end in Hend by assumption.
  apply Z.ltb_ge in Hend.
  rewrite readFromStream_split, table_stream_ok, read_preamble_ok by assumption.
  cbn [fst snd]. rewrite read_tables_full by exact Hend. reflexivity.
Qed.

(** X12: after the load of a file that holds all its declared tables the
    stream is still good and stands right behind the italic table, at
    offset [24 + 4*lh + 4*(nc + nw + nh + nd + ni)]: the load reads nothing
    behind its five tables. *)
Theorem load_leaves_stream (t : TFM) (s : istream) :
  good s = true -> 32 <= Z.of_nat (length (sbuf s)) -> ends_early s = false ->
  snd (readFromStream t s)
  = mk_istream (sbuf s) (tables_end (sbuf s)) false false
  /\ tables_end (sbuf s) <= Z.of_nat (length (sbuf s))
  /\ tables_end (sbuf s)
     = 24 + 4 * be16 (sbuf s) 2
       + 4 * (unsigned (be16 (sbuf s) 6 - be16 (sbuf s) 4 + 1)
              + be16 (sbuf s) 8 + be16 (sbuf s) 10
              + be16 (sbuf s) 12 + be16 (sbuf s) 14).
Proof.
  intros Hgood Hlen Hend.
  rewrite (load_complete t s Hgood Hlen Hend). cbn [snd].
  split; [reflexivity|]. split.
  - unfold ends_early in Hend.
    rewrite ends_early_tables_end in Hend by assumption.
    apply Z.ltb_ge in Hend. exact Hend.
  - unfold tables_end, preamble_at.
    cbn [p_lh p_firstChar p_lastChar p_nw p_nh p_nd p_ni]. lia.
Qed.

Lemma load_leaves_stream_witness :
  good scenario_stream = true
  /\ 32 <= Z.of_nat (length (sbuf scenario_stream))
  /\ ends_early scenario_stream = false
  /\ snd (readFromStream TFM_default scenario_stream)
     = mk_istream (sbuf scenario_stream) 56 false false.
Proof.
  assert (H1 : good scenario_stream = true) by reflexivity.
  assert (H2 : 32 <= Z.of_nat (length (sbuf scenario_stream)))
    by (vm_compute; discriminate).
  assert (H3 : ends_early scenario_stream = false) by (vm_compute; reflexivity).
  split; [exact H1|]. split; [exact H2|]. split; [exact H3|].
  exact (proj1 (load_leaves_stream TFM_default scenario_stream H1 H2 H3)).
Defined.

Lemma be_value_ext (d1 d2 : list byte) (p : Z) (k : nat) :
  (forall j, p <= j < p + Z.of_nat k -> byte_at d1 j = byte_at d2 j) ->
  be_value d1 p k = be_value d2 p k.
Proof.
  revert p. induction k as [|k IH]; intros p H; cbn [be_value]; [reflexivity|].
  rewrite (H p) by lia. rewrite (IH (p + 1)) by (intros j Hj; apply H; lia).
  reflexivity.
Qed.

Lemma words_at_ext (d1 d2 : list byte) (p : Z) (n : nat) :
  (forall j, p <= j < p + 4 * Z.of_nat n -> byte_at d1 j = byte_at d2 j) ->
  words_at d1 p n = words_at d2 p n.
Proof.
  revert p. induction n as [|n IH]; intros p H; cbn [words_at]; [reflexivity|].
  f_equal.
  - apply be_value_ext. intros j Hj. apply H. lia.
  - apply IH. intros j Hj. apply H. lia.
Qed.

Lemma is_read_preamble (d : list byte) (j : Z) :
  2 <= j < 16 \/ 24 <= j < 32 -> is_read d j = true.
Proof.
  intros H. unfold is_read. apply orb_true_iff. left.
  apply orb_true_iff.
  destruct H as [H|H]; [left|right]; apply andb_true_iff;
    rewrite Z.leb_le, Z.ltb_lt; lia.
Qed.

Lemma is_read_tables (d : list byte) (j : Z) :
  24 + p_lh (preamble_at d) * 4 <= j < tables_end d -> is_read d j = true.
Proof.
  intros H. unfold is_read. apply orb_true_iff. right.
  apply andb_true_iff. rewrite Z.leb_le, Z.ltb_lt. lia.
Qed.

Lemma font_at_offsets_ext (d1 d2 : list byte) :
  (forall j, is_read d1 j = true -> byte_at d1 j = byte_at d2 j) ->
  preamble_at d1 = preamble_at d2 /\ font_at_offsets d1 = font_at_offsets d2.
Proof.
  intros H.
  assert (H16 : forall p, 2 <= p -> p + 2 <= 16 -> be16 d1 p = be16 d2 p).
  { intros p Hp1 Hp2. apply be_value_ext. intros j Hj.
    apply H, is_read_preamble. cbn in Hj. lia. }
  assert (H32 : forall p, 24 <= p -> p + 4 <= 32 -> be32 d1 p = be32 d2 p).
  { intros p Hp1 Hp2. apply be_value_ext. intros j Hj.
    apply H, is_read_preamble. cbn in Hj. lia. }
  assert (Hpre : preamble_at d1 = preamble_at d2).
  { unfold preamble_at.
    rewrite (H16 2), (H16 4), (H16 6), (H16 8), (H16 10), (H16 12), (H16 14),
      (H32 24), (H32 28) by lia.
    reflexivity. }
  split; [exact Hpre|].
  assert (Hreg : forall j, 24 + p_lh (preamble_at d1) * 4 <= j < tables_end d1 ->
                   byte_at d1 j = byte_at d2 j)
    by (intros j Hj; apply H, is_read_tables, Hj).
  unfold tables_end in Hreg. cbv zeta in Hreg.
  unfold font_at_offsets. cbv zeta. rewrite <- Hpre.
  set (p := preamble_at d1) in *.
  pose proof (unsigned_nonneg (p_lastChar p - p_firstChar p + 1)) as Hc.
  assert (Hlh : 0 <= p_lh p < 2 ^ 16) by apply be16_range.
  assert (Hnw : 0 <= p_nw p < 2 ^ 16) by apply be16_range.
  assert (Hnh : 0 <= p_nh p < 2 ^ 16) by apply be16_range.
  assert (Hnd : 0 <= p_nd p < 2 ^ 16) by apply be16_range.
  assert (Hni : 0 <= p_ni p < 2 ^ 16) by apply be16_range.
  f_equal; apply words_at_ext; intros j Hj; apply Hreg;
    rewrite Z2Nat.id in Hj by lia; lia.
Qed.

(** X13: the load reads the file length, the four counts at offsets 16 to
    23, the header behind its first two words and whatever follows the
    italic table not at all: two complete files that agree on the bytes at
    offsets 2 to 15 and 24 to 31 and on the bytes of the five tables load
    the same font. *)
Theorem load_reads_only (t1 t2 : TFM) (s1 s2 : istream) :
  good s1 = true -> good s2 = true ->
  32 <= Z.of_nat (length (sbuf s1)) -> 32 <= Z.of_nat (length (sbuf s2)) ->
  ends_early s1 = false -> ends_early s2 = false ->
  (forall j, is_read (sbuf s1) j = true ->
             byte_at (sbuf s1) j = byte_at (sbuf s2) j) ->
  snd (fst (readFromStream t1 s1)) = snd (fst (readFromStream t2 s2)).
Proof.
  intros G1 G2 L1 L2 E1 E2 H.
  rewrite (load_complete t1 s1 G1 L1 E1), (load_complete t2 s2 G2 L2 E2).
  cbn [fst snd]. apply font_at_offsets_ext. exact H.
Qed.

Lemma is_read_bound (d : list byte) (j : Z) :
  32 <= tables_end d -> is_read d j = true -> 0 <= j < tables_end d.
Proof.
  intros Hend H. unfold is_read in H.
  pose proof (be16_range d 2) as Hlh.
  change (be16 d 2) with (p_lh (preamble_at d)) in Hlh.
  apply orb_true_iff in H. destruct H as [H|H].
  - apply orb_true_iff in H.
    destruct H as [H|H]; apply andb_true_iff in H; destruct H as [H1 H2];
      apply Z.leb_le in H1; apply Z.ltb_lt in H2; lia.
  - apply andb_true_iff in H. destruct H as [H1 H2].
    apply Z.leb_le in H1. apply Z.ltb_lt in H2. lia.
Qed.

Lemma load_reads_only_witness :
  good scenario_stream = true /\ good scenario_variant = true
  /\ 32 <= Z.of_nat (length (sbuf scenario_stream))
  /\ 32 <= Z.of_nat (length (sbuf scenario_variant))
  /\ ends_early scenario_stream = false /\ ends_early scenario_variant = false
  /\ sbuf scenario_stream <> sbuf scenario_variant
  /\ snd (fst (readFromStream TFM_default scenario_stream))
     = snd (fst (readFromStream TFM_default scenario_variant)).
Proof.
  assert (G1 : good scenario_stream = true) by reflexivity.
  assert (G2 : good scenario_variant = true) by reflexivity.
  assert (L1 : 32 <= Z.of_nat (length (sbuf scenario_stream)))
    by (vm_compute; discriminate).
  assert (L2 : 32 <= Z.of_nat (length (sbuf scenario_variant)))
    by (vm_compute; discriminate).
  assert (E1 : ends_early scenario_stream = false) by (vm_compute; reflexivity).
  assert (E2 : ends_early scenario_variant = false) by (vm_compute; reflexivity).
  assert (H : forall j, is_read (sbuf scenario_stream) j = true ->
                byte_at (sbuf scenario_stream) j = byte_at (sbuf scenario_variant) j).
  { intros j Hj.
    assert (Hend : tables_end (sbuf scenario_stream) = 56) by (vm_compute; reflexivity).
    pose proof (is_read_bound _ j ltac:(rewrite Hend; lia) Hj) as Hb.
    rewrite Hend in Hb.
    assert (Hall : forallb (fun k =>
                     negb (is_read (sbuf scenario_stream) (Z.of_nat k))
                     || (byte_at (sbuf scenario_stream) (Z.of_nat k)
                         =? byte_at (sbuf scenario_variant) (Z.of_nat k)))
                     (seq 0 56) = true) by (vm_compute; reflexivity).
    rewrite forallb_forall in Hall.
    specialize (Hall (Z.to_nat j)).
    rewrite Z2Nat.id in Hall by lia. rewrite Hj in Hall. cbn [negb orb] in Hall.
    apply Z.eqb_eq, Hall, in_seq. lia. }
  split; [exact G1|]. split; [exact G2|]. split; [exact L1|]. split; [exact L2|].
  split; [exact E1|]. split; [exact E2|].
  split; [vm_compute; discriminate|].
  exact (load_reads_only TFM_default TFM_default scenario_stream scenario_variant
           G1 G2 L1 L2 E1 E2 H).
Defined.

(** ** Writing a font and loading it *)

Lemma byte_of_Z_value (z : Z) :
  Z.of_N (Byte.to_N (byte_of_Z z)) = z mod 256.
Proof.
  unfold byte_of_Z.
  pose proof (Z.mod_pos_bound z 256 ltac:(lia)) as Hr.
  destruct (Byte.of_N (Z.to_N (z mod 256))) as [b|] eqn:E.
  - apply Byte.to_of_N in E. rewrite E. apply Z2N.id. lia.
  - apply Byte.of_N_None_iff in E. lia.
Qed.

Lemma byte_at_app_r (l d : list byte) (p : Z) :
  Z.of_nat (length l) <= p ->
  byte_at (l ++ d) p = byte_at d (p - Z.of_nat (length l)).
Proof.
  intros H. unfold byte_at.
  rewrite lookup_app_r by lia.
  replace (Z.to_nat p - length l)%nat
    with (Z.to_nat (p - Z.of_nat (length l))) by lia.
  reflexivity.
Qed.

Lemma be_value_skip (l d : list byte) (p : Z) (k : nat) :
  Z.of_nat (length l) <= p ->
  be_value (l ++ d) p k = be_value d (p - Z.of_nat (length l)) k.
Proof.
  revert p. induction k as [|k IH]; intros p H; cbn [be_value]; [reflexivity|].
  rewrite byte_at_app_r, IH by lia.
  f_equal. f_equal. lia.
Qed.

Lemma words_at_skip (l d : list byte) (p : Z) (n : nat) :
  Z.of_nat (length l) <= p ->
  words_at (l ++ d) p n = words_at d (p - Z.of_nat (length l)) n.
Proof.
  revert p. induction n as [|n IH]; intros p H; cbn [words_at]; [reflexivity|].
  unfold be32. rewrite be_value_skip, IH by lia.
  f_equal. f_equal. lia.
Qed.

Lemma byte_at_0 (b : byte) (d : list byte) :
  byte_at (b :: d) 0 = Z.of_N (Byte.to_N b).
Proof. reflexivity. Qed.

Lemma byte_at_succ (b : byte) (d : list byte) (p : Z) :
  1 <= p -> byte_at (b :: d) p = byte_at d (p - 1).
Proof. intros H. exact (byte_at_app_r [b] d p H). Qed.

Lemma be16_enc16 (v : Z) (r : list byte) (p : Z) :
  p = 0 -> 0 <= v < 2 ^ 16 -> be_value (enc16 v ++ r) p 2 = v.
Proof.
  intros -> Hv. unfold enc16. cbn [app be_value].
  rewrite byte_at_0, byte_at_succ, byte_at_0 by lia.
  rewrite !byte_of_Z_value.
  change (2 ^ (8 * Z.of_nat 1)) with 256. change (2 ^ (8 * Z.of_nat 0)) with 1.
  change (2 ^ 8) with 256. change (2 ^ 16) with 65536 in Hv.
  pose proof (Z.div_mod v 256 ltac:(lia)).
  rewrite (Z.mod_small (v / 256) 256) by (split; [apply Z.div_pos|apply Z.div_lt_upper_bound]; lia).
  lia.
Qed.

Lemma be32_enc32 (v : Z) (r : list byte) (p : Z) :
  p = 0 -> be_value (enc32 v ++ r) p 4 = v mod 2 ^ 32.
Proof.
  intros ->. unfold enc32. cbn [app be_value].
  rewrite byte_at_0.
  rewrite (byte_at_succ _ _ (0 + 1)) by lia. replace (0 + 1 - 1) with 0 by lia.
  rewrite byte_at_0.
  rewrite (byte_at_succ _ _ (0 + 1 + 1)), (byte_at_succ _ _ (0 + 1 + 1 - 1)) by lia.
  replace (0 + 1 + 1 - 1 - 1) with 0 by lia. rewrite byte_at_0.
  rewrite (byte_at_succ _ _ (0 + 1 + 1 + 1)), (byte_at_succ _ _ (0 + 1 + 1 + 1 - 1)),
    (byte_at_succ _ _ (0 + 1 + 1 + 1 - 1 - 1)) by lia.
  replace (0 + 1 + 1 + 1 - 1 - 1 - 1) with 0 by lia. rewrite byte_at_0.
  rewrite !byte_of_Z_value.
  change (2 ^ (8 * Z.of_nat 3)) with 16777216.
  change (2 ^ (8 * Z.of_nat 2)) with 65536.
  change (2 ^ (8 * Z.of_nat 1)) with 256. change (2 ^ (8 * Z.of_nat 0)) with 1.
  change (2 ^ 24) with (256 * 256 * 256). change (2 ^ 16) with (256 * 256).
  change (2 ^ 8) with 256. change (2 ^ 32) with (256 * (256 * (256 * 256))).
  rewrite <- !Z.div_div by lia.
  rewrite !Z.rem_mul_r by lia.
  lia.
Qed.

Lemma length_enc32s (l : list Z) :
  length (concat (map enc32 l)) = (4 * length l)%nat.
Proof.
  induction l as [|x l IH]; cbn [map concat]; [reflexivity|].
  rewrite length_app, IH. change (length (enc32 x)) with 4%nat.
  cbn [length]. lia.
Qed.

Lemma be_value_skip16 (a : Z) (X : list byte) (p : Z) (k : nat) :
  2 <= p -> be_value (enc16 a ++ X) p k = be_value X (p - 2) k.
Proof. exact (be_value_skip (enc16 a) X p k). Qed.

Lemma be_value_skip32 (a : Z) (X : list byte) (p : Z) (k : nat) :
  4 <= p -> be_value (enc32 a ++ X) p k = be_value X (p - 4) k.
Proof. exact (be_value_skip (enc32 a) X p k). Qed.

Lemma words_at_skip16 (a : Z) (X : list byte) (p : Z) (n : nat) :
  2 <= p -> words_at (enc16 a ++ X) p n = words_at X (p - 2) n.
Proof. exact (words_at_skip (enc16 a) X p n). Qed.

Lemma words_at_skip32 (a : Z) (X : list byte) (p : Z) (n : nat) :
  4 <= p -> words_at (enc32 a ++ X) p n = words_at X (p - 4) n.
Proof. exact (words_at_skip (enc32 a) X p n). Qed.

Lemma words_at_skip_table (l : list Z) (X : list byte) (p : Z) (n : nat) :
  4 * Z.of_nat (length l) <= p ->
  words_at (concat (map enc32 l) ++ X) p n
  = words_at X (p - 4 * Z.of_nat (length l)) n.
Proof.
  intros H. rewrite words_at_skip by (rewrite length_enc32s; lia).
  rewrite length_enc32s. f_equal. lia.
Qed.

(** The words of a table are read back from its bytes. *)
Lemma words_at_table (l : list Z) (X : list byte) (p : Z) :
  p = 0 -> Forall UInt32_range l ->
  words_at (concat (map enc32 l) ++ X) p (length l) = l.
Proof.
  intros -> H. induction H as [|x l Hx Hl IH]; cbn [map concat length words_at];
    [reflexivity|].
  rewrite <- app_assoc. unfold be32.
  rewrite be32_enc32 by reflexivity.
  rewrite words_at_skip32 by lia. change (0 + 4 - 4) with 0.
  rewrite IH. f_equal. apply Z.mod_small. exact Hx.
Qed.

Lemma FixWord_mod (x : Z) : int_range x -> FixWord (x mod 2 ^ 32) = x.
Proof.
  unfold int_range, FixWord. intros H.
  rewrite Zplus_mod_idemp_l.
  rewrite Z.mod_small by lia. lia.
Qed.

Section FileLayout.

(** A file that begins with twelve 16-bit values and two 32-bit values. *)
Variables a0 lh fc lc nw nh nd ni b1 b2 b3 b4 cs ds : Z.
Variable X : list byte.

Let file : list byte :=
  enc16 a0 ++ enc16 lh ++ enc16 fc ++ enc16 lc
  ++ enc16 nw ++ enc16 nh ++ enc16 nd ++ enc16 ni
  ++ enc16 b1 ++ enc16 b2 ++ enc16 b3 ++ enc16 b4
  ++ enc32 cs ++ enc32 ds ++ X.

Lemma file_length : length file = (32 + length X)%nat.
Proof. reflexivity. Qed.

Lemma file_words (p : Z) (n : nat) :
  32 <= p -> words_at file p n = words_at X (p - 32) n.
Proof.
  intros Hp. unfold file.
  do 12 (rewrite words_at_skip16 by lia).
  do 2 (rewrite words_at_skip32 by lia).
  f_equal. lia.
Qed.

Hypothesis Hlh : 0 <= lh < 2 ^ 16.
Hypothesis Hfc : 0 <= fc < 2 ^ 16.
Hypothesis Hlc : 0 <= lc < 2 ^ 16.
Hypothesis Hnw : 0 <= nw < 2 ^ 16.
Hypothesis Hnh : 0 <= nh < 2 ^ 16.
Hypothesis Hnd : 0 <= nd < 2 ^ 16.
Hypothesis Hni : 0 <= ni < 2 ^ 16.
Hypothesis Hcs : 0 <= cs < 2 ^ 32.
Hypothesis Hds : int_range ds.

Lemma file_preamble :
  preamble_at file = mk_preamble lh fc lc nw nh nd ni cs ds.
Proof.
  unfold preamble_at, be16, be32.
  assert (E2 : be_value file 2 2 = lh).
  { unfold file. do 1 (rewrite be_value_skip16 by lia).
    apply be16_enc16; lia. }
  assert (E4 : be_value file 4 2 = fc).
  { unfold file. do 2 (rewrite be_value_skip16 by lia).
    apply be16_enc16; lia. }
  assert (E6 : be_value file 6 2 = lc).
  { unfold file. do 3 (rewrite be_value_skip16 by lia).
    apply be16_enc16; lia. }
  assert (E8 : be_value file 8 2 = nw).
  { unfold file. do 4 (rewrite be_value_skip16 by lia).
    apply be16_enc16; lia. }
  assert (E10 : be_value file 10 2 = nh).
  { unfold file. do 5 (rewrite be_value_skip16 by lia).
    apply be16_enc16; lia. }
  assert (E12 : be_value file 12 2 = nd).
  { unfold file. do 6 (rewrite be_value_skip16 by lia).
    apply be16_enc16; lia. }
  assert (E14 : be_value file 14 2 = ni).
  { unfold file. do 7 (rewrite be_value_skip16 by lia).
    apply be16_enc16; lia. }
  assert (E24 : be_value file 24 4 = cs).
  { unfold file. do 12 (rewrite be_value_skip16 by lia).
    rewrite be32_enc32 by lia. apply Z.mod_small. exact Hcs. }
  assert (E28 : be_value file 28 4 = ds mod 2 ^ 32).
  { unfold file. do 12 (rewrite be_value_skip16 by lia).
    rewrite be_value_skip32 by lia.
    apply be32_enc32. lia. }
  rewrite E2, E4, E6, E8, E10, E12, E14, E24, E28, FixWord_mod by exact Hds.
  reflexivity.
Qed.

End FileLayout.

Lemma vec_size_range (v : list Z) : 0 <= vec_size v.
Proof. unfold vec_size. lia. Qed.

Lemma write_then_load_helper (lf nl nk ne np : Z) (header_rest : list Z) (f t : TFM)
    (trailer : list byte) :
  TFM_storable f -> 2 + Z.of_nat (length header_rest) < 2 ^ 16 ->
  fst (readFromStream t
         (open_stream (tfm_file lf nl nk ne np header_rest f trailer)))
  = (true, f).
Proof.
  intros [[Hfc Hlc Hds] Hcs Hchars Hnw Hnh Hnd Hni Fci Fwt Fht Fdt Fit] Hhdr.
  destruct f as [cs fc lc ds ci wt ht dt it].
  cbn [_checksum _firstChar _lastChar _designSize _charInfoTable _widthTable
       _heightTable _depthTable _italicTable] in *.
  unfold UInt16_range, UInt32_range in Hfc, Hlc, Hcs.
  pose proof (vec_size_range ci) as Pci. pose proof (vec_size_range wt) as Pwt.
  pose proof (vec_size_range ht) as Pht. pose proof (vec_size_range dt) as Pdt.
  pose proof (vec_size_range it) as Pit.
  set (T := concat (map enc32 header_rest) ++ concat (map enc32 ci)
            ++ concat (map enc32 wt) ++ concat (map enc32 ht)
            ++ concat (map enc32 dt) ++ concat (map enc32 it) ++ trailer).
  set (d := tfm_file lf nl nk ne np header_rest
              (mk_TFM cs fc lc ds ci wt ht dt it) trailer).
  assert (Hd : d = enc16 lf ++ enc16 (2 + Z.of_nat (length header_rest))
                   ++ enc16 fc ++ enc16 lc
                   ++ enc16 (vec_size wt) ++ enc16 (vec_size ht)
                   ++ enc16 (vec_size dt) ++ enc16 (vec_size it)
                   ++ enc16 nl ++ enc16 nk ++ enc16 ne ++ enc16 np
                   ++ enc32 cs ++ enc32 ds ++ T) by reflexivity.
  assert (Hpre : preamble_at d
                 = mk_preamble (2 + Z.of_nat (length header_rest)) fc lc
                     (vec_size wt) (vec_size ht) (vec_size dt) (vec_size it) cs ds).
  { rewrite Hd. apply file_preamble; lia || assumption. }
  assert (Hlen : Z.of_nat (length d)
                 = 32 + 4 * Z.of_nat (length header_rest)
                   + 4 * (vec_size ci + vec_size wt + vec_size ht
                          + vec_size dt + vec_size it)
                   + Z.of_nat (length trailer)).
  { rewrite Hd, file_length.
    unfold T. rewrite !length_app, !length_enc32s. unfold vec_size. lia. }
  assert (Hnc : unsigned (lc - fc + 1) = vec_size ci)
    by (rewrite <- Hchars; apply unsigned_small; lia).
  assert (Hend : tables_end d
                 = 32 + 4 * Z.of_nat (length header_rest)
                   + 4 * (vec_size ci + vec_size wt + vec_size ht
                          + vec_size dt + vec_size it)).
  { unfold tables_end. cbv zeta. rewrite Hpre.
    cbn [p_lh p_firstChar p_lastChar p_nw p_nh p_nd p_ni]. rewrite Hnc. lia. }
  assert (Hgood : good (open_stream d) = true) by reflexivity.
  assert (H32 : 32 <= Z.of_nat (length (sbuf (open_stream d))))
    by (cbn [sbuf open_stream]; lia).
  assert (Hearly : ends_early (open_stream d) = false).
  { unfold ends_early. rewrite ends_early_tables_end by assumption.
    cbn [sbuf open_stream]. apply Z.ltb_ge. lia. }
  rewrite (load_complete t (open_stream d) Hgood H32 Hearly).
  cbn [fst sbuf open_stream]. f_equal.
  unfold font_at_offsets. cbv zeta. rewrite Hpre.
  cbn [p_lh p_firstChar p_lastChar p_nw p_nh p_nd p_ni p_checksum p_designSize].
  rewrite Hnc.
  assert (Hw : forall p n, 32 <= p -> words_at d p n = words_at T (p - 32) n)
    by (intros p n Hp; rewrite Hd; apply file_words; exact Hp).
  unfold vec_size in *. rewrite !Nat2Z.id.
  rewrite !Hw by lia. unfold T.
  f_equal.
  - rewrite words_at_skip_table by lia.
    apply words_at_table; [lia|assumption].
  - do 2 (rewrite words_at_skip_table by lia).
    apply words_at_table; [lia|assumption].
  - do 3 (rewrite words_at_skip_table by lia).
    apply words_at_table; [lia|assumption].
  - do 4 (rewrite words_at_skip_table by lia).
    apply words_at_table; [lia|assumption].
  - do 5 (rewrite words_at_skip_table by lia).
    apply words_at_table; [lia|assumption].
Qed.

(** X14: writing and loading.  Every font a TFM file can hold is loaded
    back from its file as it was, for every header length, whatever the
    file length field, the counts of the skipped tables, the rest of the
    header and the bytes behind the italic table are, and whatever the font
    object held before. *)
Theorem write_then_load (lf nl nk ne np : Z) (header_rest : list Z) (f t : TFM)
    (trailer : list byte) :
  TFM_storable f -> 2 + Z.of_nat (length header_rest) < 2 ^ 16 ->
  fst (readFromStream t
         (open_stream (tfm_file lf nl nk ne np header_rest f trailer)))
  = (true, f).
Proof.
  intros Hst Hhdr. apply write_then_load_helper; assumption.
Qed.

Lemma sample_font_storable : TFM_storable sample_font.
Proof.
  split; try (unfold vec_size; cbn; lia);
    try (repeat constructor; unfold UInt32_range; cbn; lia).
Qed.

Lemma write_then_load_witness :
  TFM_storable sample_font
  /\ 2 + Z.of_nat (length [5; 6]) < 2 ^ 16
  /\ fst (readFromStream TFM_default
            (open_stream (tfm_file 0 3 4 5 6 [5; 6] sample_font [xff; x00])))
     = (true, sample_font).
Proof.
  assert (H : 2 + Z.of_nat (length [5; 6]) < 2 ^ 16) by reflexivity.
  split; [exact sample_font_storable|]. split; [exact H|].
  exact (write_then_load 0 3 4 5 6 [5; 6] sample_font TFM_default [xff; x00]
           sample_font_storable H).
Defined.

Lemma read_unsigned_range (n : Z) (s : istream) :
  UInt32_range (fst (read_unsigned n s)).
Proof.
  unfold read_unsigned.
  destruct (read_unsigned_loop_frame (Z.to_nat n) 0 s ltac:(lia))
    as (_ & _ & Hr & _).
  exact Hr.
Qed.

Lemma read_words_loop_range (k i : nat) (v : list Z) (s : istream) :
  Forall UInt32_range v -> Forall UInt32_range (fst (read_words_loop k i v s)).
Proof.
  revert i v s. induction k as [|k IH]; intros i v s Hv; cbn [read_words_loop].
  - exact Hv.
  - pose proof (read_unsigned_range 4 s) as Hw.
    destruct (read_unsigned 4 s) as [w s']. cbn [fst] in Hw.
    apply IH. apply Forall_insert; assumption.
Qed.

Lemma read_words_range (v : list Z) (n : Z) (s : istream) :
  Forall UInt32_range (fst (read_words v n s)).
Proof.
  unfold read_words. apply read_words_loop_range.
  unfold vec_resize. rewrite take_nil. cbn [app]. apply Forall_replicate.
  unfold UInt32_range. lia.
Qed.

Lemma read_tables_ranges (t : TFM) (p : preamble) (s : istream) :
  let f := fst (read_tables t p s) in
  Forall UInt32_range (_charInfoTable f) /\ Forall UInt32_range (_widthTable f)
  /\ Forall UInt32_range (_heightTable f) /\ Forall UInt32_range (_depthTable f)
  /\ Forall UInt32_range (_italicTable f).
Proof.
  unfold read_tables.
  pose proof (read_words_range (_charInfoTable t)
                (p_lastChar p - p_firstChar p + 1) s) as H1.
  destruct (read_words (_charInfoTable t) _ s) as [ci s1].
  pose proof (read_words_range (_widthTable t) (p_nw p) s1) as H2.
  destruct (read_words (_widthTable t) _ s1) as [wt s2].
  pose proof (read_words_range (_heightTable t) (p_nh p) s2) as H3.
  destruct (read_words (_heightTable t) _ s2) as [ht s3].
  pose proof (read_words_range (_depthTable t) (p_nd p) s3) as H4.
  destruct (read_words (_depthTable t) _ s3) as [dt s4].
  pose proof (read_words_range (_italicTable t) (p_ni p) s4) as H5.
  destruct (read_words (_italicTable t) _ s4) as [it s5].
  cbn in *. repeat split; assumption.
Qed.

(** X15: what every load establishes, whatever the stream holds.  The
    members of the loaded font are in the ranges of their types, the metric
    tables have fewer than 65536 words and every table word is a 32-bit
    value.  Unless [lastChar < firstChar - 1], there is also one char info
    word for each character of the range: the font is then one that a TFM
    file holds, and it is loaded back from that file. *)
Theorem loaded_storable (t : TFM) (s : istream) :
  let f := snd (fst (readFromStream t s)) in
  (TFM_wf f
   /\ UInt32_range (_checksum f)
   /\ vec_size (_widthTable f) < 2 ^ 16
   /\ vec_size (_heightTable f) < 2 ^ 16
   /\ vec_size (_depthTable f) < 2 ^ 16
   /\ vec_size (_italicTable f) < 2 ^ 16
   /\ Forall UInt32_range (_charInfoTable f)
   /\ Forall UInt32_range (_widthTable f)
   /\ Forall UInt32_range (_heightTable f)
   /\ Forall UInt32_range (_depthTable f)
   /\ Forall UInt32_range (_italicTable f))
  /\ (_firstChar f <= _lastChar f + 1 ->
      vec_size (_charInfoTable f) = _lastChar f - _firstChar f + 1
      /\ TFM_storable f
      /\ forall t' lf nl nk ne np trailer,
           fst (readFromStream t'
                  (open_stream (tfm_file lf nl nk ne np [] f trailer)))
           = (true, f)).
Proof.
  cbv zeta.
  pose proof (loaded_wf t s) as Hwf.
  revert Hwf. rewrite readFromStream_split. cbn [fst snd].
  set (f := fst (read_tables t (fst (read_preamble s)) (table_stream s))).
  intros Hwf.
  destruct (read_tables_sizes t (fst (read_preamble s)) (table_stream s))
    as (S1 & S2 & S3 & S4 & S5).
  destruct (read_tables_scalars t (fst (read_preamble s)) (table_stream s))
    as (Hc & Hf & Hl & Hd).
  destruct (read_tables_ranges t (fst (read_preamble s)) (table_stream s))
    as (R1 & R2 & R3 & R4 & R5).
  destruct (read_preamble_ranges s)
    as (_ & Pf & Pl & Pw & Ph & Pd & Pi & Pc & _).
  fold f in S1, S2, S3, S4, S5, Hc, Hf, Hl, Hd, R1, R2, R3, R4, R5.
  unfold UInt16_range in Pf, Pl, Pw, Ph, Pd, Pi.
  rewrite unsigned_small in S2, S3, S4, S5 by lia.
  assert (Hck : UInt32_range (_checksum f)) by (rewrite Hc; exact Pc).
  split.
  - split; [exact Hwf|]. split; [exact Hck|].
    repeat split; try assumption; lia.
  - intros Hrange.
    assert (Hn : vec_size (_charInfoTable f) = _lastChar f - _firstChar f + 1).
    { rewrite S1, <- Hf, <- Hl. apply unsigned_small.
      destruct Hwf as [Wf Wl Wd]. unfold UInt16_range in Wf, Wl. lia. }
    assert (Hst : TFM_storable f) by (split; try assumption; lia).
    split; [exact Hn|]. split; [exact Hst|].
    intros t' lf nl nk ne np trailer.
    apply write_then_load_helper; [exact Hst|cbn; lia].
Qed.

Lemma loaded_storable_witness :
  let f := snd (fst (readFromStream TFM_default truncated_stream)) in
  _firstChar f <= _lastChar f + 1
  /\ TFM_wf f
  /\ vec_size (_widthTable f) < 2 ^ 16
  /\ vec_size (_charInfoTable f) = _lastChar f - _firstChar f + 1
  /\ TFM_storable f
  /\ fst (readFromStream TFM_default (open_stream (tfm_file 0 0 0 0 0 [] f [])))
     = (true, f).
Proof.
  cbv zeta.
  assert (H : _firstChar (snd (fst (readFromStream TFM_default truncated_stream)))
              <= _lastChar (snd (fst (readFromStream TFM_default truncated_stream))) + 1)
    by (vm_compute; discriminate).
  split; [exact H|].
  destruct (loaded_storable TFM_default truncated_stream)
    as [(Hwf & _ & Hw & _) Hcond].
  destruct (Hcond H) as (Hn & Hst & Hload).
  split; [exact Hwf|]. split; [exact Hw|]. split; [exact Hn|].
  split; [exact Hst|]. exact (Hload TFM_default 0 0 0 0 0 []).
Defined.
